(** * jellyfin-helper-ro: the matching and scoring engine

    A shallow embedding of the candidate-matching code of
    [tmdb_client.py], [trailer_manager.py] and [main.py], and the
    properties the specification states about it.

    Python values are modelled as follows.
    - [str] is a list of Unicode code points ([char := N]).
    - [int] is [Z].
    - [set] of strings is [gset str]; a [dict] with string keys is a [gmap].
    - The Unicode Character Database that [unicodedata], [str.lower] and
      the [re] class [\d] consult is a parameter ([UnicodeData]): the
      program is verified for every database, and a few results name the
      properties of the database they rely on. *)

From Stdlib Require Import ZArith NArith List Bool Lia.
From Stdlib Require Import Strings.String Strings.Ascii Numbers.DecimalString.
From stdpp Require Import base option list gmap strings sorting.

Local Open Scope Z_scope.

(* [set_solver] clears hypotheses by name and warns when one is gone. *)
Local Set Warnings "-clear-no-such-hyp".

(** ** Python strings *)

Definition char := N.
Abbreviation str := (list char).

(** A literal of the source: its characters are ASCII, so each byte is
    one code point. *)
Definition lit (s : string) : str :=
  map N_of_ascii (list_ascii_of_string s).

(** Truthiness of a [str]: the empty string is false. *)
Definition truthy (s : str) : bool :=
  match s with [] => false | _ :: _ => true end.

(** [s.startswith(p)] *)
Fixpoint startswith (p s : str) : bool :=
  match p, s with
  | [], _ => true
  | _ :: _, [] => false
  | a :: p', b :: s' => if N.eqb a b then startswith p' s' else false
  end.

(** [p in s] on strings: substring test. *)
Fixpoint contains (p s : str) : bool :=
  startswith p s ||
  match s with
  | [] => false
  | _ :: s' => contains p s'
  end.

(** [s.replace(':', '')] *)
Definition colon : char := 58%N.

Definition strip_colons (s : str) : str :=
  filter (fun c => c ≠ colon) s.

(** [s[:4]] is [take 4 s]; [len(s)] is [length s]. *)

(** Formatting of an [int] inside an f-string: [{n}] and [{n:02d}]. *)
Definition digits_of_N (n : N) : str :=
  lit (NilZero.string_of_uint (N.to_uint n)).

Definition format_d (n : Z) : str :=
  if n <? 0 then lit "-" ++ digits_of_N (Z.to_N (- n))
  else digits_of_N (Z.to_N n).

(** Zero padding to width 2; a sign counts towards the width, so only
    the one-digit numbers 0..9 are padded. *)
Definition format_02d (n : Z) : str :=
  let s := format_d n in
  if (length s <? 2)%nat then lit "0" ++ s else s.

(** ** The Unicode Character Database *)

(** What the program asks of the database, one field per query:
    - [decomposition c]: the full compatibility decomposition of one code
      point (recursively expanded, Hangul included), [[c]] when it has none;
    - [combining c]: [unicodedata.combining(c)], the canonical combining
      class;
    - [to_lower c]: the full lower-case mapping of one code point;
    - [final_sigma before after]: whether a capital sigma that follows
      [before] (nearest character first) and precedes [after] is in the
      Final_Sigma context;
    - [decimal c]: the value of a decimal digit (category Nd), which is
      what [\d] matches and [int] reads. *)
Class UnicodeData := {
  decomposition : char -> str;
  combining : char -> N;
  to_lower : char -> str;
  final_sigma : str -> str -> bool;
  decimal : char -> option Z
}.

Definition capital_sigma : char := 931%N.
Definition small_sigma : char := 963%N.
Definition small_final_sigma : char := 962%N.

Section Unicode.
Context {U : UnicodeData}.

Definition starter (c : char) : bool := N.eqb (combining c) 0.

(** Canonical ordering: a combining mark moves in front of the marks
    of a higher class that immediately precede it.  [acc] is the text
    already ordered, last character first. *)
Fixpoint insert_mark (c : char) (acc : str) : str :=
  match acc with
  | [] => [c]
  | p :: acc' =>
      if negb (starter c) && N.ltb (combining c) (combining p)
      then p :: insert_mark c acc'
      else c :: acc
  end.

Definition canonical_order (s : str) : str :=
  reverse (fold_left (fun acc c => insert_mark c acc) s []).

(** [unicodedata.normalize('NFKD', s)] *)
Definition nfkd (s : str) : str :=
  canonical_order (flat_map decomposition s).

(** [s.lower()]: every code point is replaced by its lower-case mapping,
    a capital sigma by one of the two small sigmas. *)
Fixpoint lower_from (before s : str) : str :=
  match s with
  | [] => []
  | c :: rest =>
      (if N.eqb c capital_sigma
       then [if final_sigma before rest
             then small_final_sigma else small_sigma]
       else to_lower c)
      ++ lower_from (c :: before) rest
  end.

Definition lower (s : str) : str := lower_from [] s.

(** [\d] *)
Definition is_digit (c : char) : bool :=
  match decimal c with Some _ => true | None => false end.

(** [int(s)] for a string of decimal digits. *)
Definition int_of_digits (s : str) : Z :=
  fold_left (fun acc c => 10 * acc + default 0 (decimal c)) s 0.

(** [re.findall(r'[a-z0-9]+', s)]: the maximal runs of ASCII lower-case
    letters and digits, left to right.  [cur] is the run being read,
    last character first. *)
Definition is_word_char (c : char) : bool :=
  (N.leb 97 c && N.leb c 122) || (N.leb 48 c && N.leb c 57).

Definition flush (cur : str) (out : list str) : list str :=
  match cur with [] => out | _ :: _ => reverse cur :: out end.

Fixpoint findall_words_from (cur : str) (s : str) : list str :=
  match s with
  | [] => flush cur []
  | c :: rest =>
      if is_word_char c then findall_words_from (c :: cur) rest
      else flush cur (findall_words_from [] rest)
  end.

Definition findall_words (s : str) : list str := findall_words_from [] s.

(** *** trailer_manager.py: text normalisation *)

Definition _normalize (text : str) : str :=
  let nfkd := nfkd text in
  let stripped := filter (fun c => starter c = true) nfkd in
  lower stripped.

Definition _extract_words (text : str) : gset str :=
  list_to_set (findall_words (_normalize text)).

End Unicode.

(** The database restricted to ASCII: no decomposition, no combining
    mark, the 26 capital letters lowered, the ten digits.  It agrees with
    the real database on every code point below 128. *)
Definition ascii_lower (c : char) : char :=
  if (N.leb 65 c && N.leb c 90)%N then (c + 32)%N else c.

Definition ascii_decimal (c : char) : option Z :=
  if (N.leb 48 c && N.leb c 57)%N then Some (Z.of_N c - 48) else None.

Definition ascii_data : UnicodeData := {|
  decomposition c := [c];
  combining _ := 0%N;
  to_lower c := [ascii_lower c];
  final_sigma _ _ := false;
  decimal := ascii_decimal
|}.

(** ** trailer_manager.py *)

(** Minimum score to accept a YouTube result. *)
Definition MIN_SCORE : Z := 5.

(** Reject videos with these keywords in the title. *)
Definition REJECT_KEYWORDS : list str :=
  map lit
    ["interview"; "interviu"; "recap"; "review"; "reaction";
     "explained"; "breakdown"; "behind the scenes"; "making of";
     "full movie"; "full episode"; "rezumat"; "episod complet"].

(** One search result as [_yt_search_json] builds it.  [None] stands
    for a value that is absent or null, which the scorer reads as
    [False] and [0]. *)
Record Candidate := {
  cand_id : str;
  cand_title : str;
  cand_channel : str;
  cand_channel_is_verified : option bool;
  cand_duration : option Z
}.

(** [{**c, 'score': score}] *)
Record Scored := {
  scored_candidate : Candidate;
  scored_score : Z
}.

Definition season_pats (season_num : Z) : list str :=
  [ lit "season " ++ format_d season_num;
    lit "sezon " ++ format_d season_num;
    lit "sezonul " ++ format_d season_num;
    lit "sez " ++ format_d season_num;
    lit "s" ++ format_02d season_num;
    lit "s" ++ format_d season_num ++ lit " ";
    lit "series " ++ format_d season_num;
    lit "seria " ++ format_d season_num ].

Section TrailerManager.
Context {U : UnicodeData}.

(** Score a YouTube result.  Negative = reject, higher = better. *)
Definition _score_candidate (candidate : Candidate) (title_words : gset str)
    (year : str) (is_show is_season : bool) (season_num : Z) : Z :=
  let video_title := cand_title candidate in
  let norm_title := _normalize video_title in
  let video_words := _extract_words video_title in
  let duration := default 0 (cand_duration candidate) in
  let verified := default false (cand_channel_is_verified candidate) in
  (* Must contain "trailer" *)
  if negb (bool_decide (lit "trailer" ∈ video_words)) then -1 else
  (* Must contain ALL significant words from the original title *)
  if negb (bool_decide (title_words ⊆ video_words)) then -1 else
  (* Reject negative keywords *)
  if existsb (fun kw => contains kw norm_title) REJECT_KEYWORDS then -1 else
  (* For season trailers: must mention the season number *)
  if is_season && (0 <? season_num)
     && negb (existsb (fun p => contains p norm_title)
                (season_pats season_num))
  then -1 else
  let score := 5 in
  let score :=
    if truthy year && bool_decide (year ∈ video_words)
    then score + 3 else score in
  let score := if verified then score + 4 else score in
  let score :=
    if bool_decide (lit "official" ∈ video_words)
       || bool_decide (lit "oficial" ∈ video_words)
    then score + 3 else score in
  let score :=
    if bool_decide (lit "red" ∈ video_words)
       && bool_decide (lit "band" ∈ video_words)
    then score + 5 else score in
  let score :=
    if (30 <=? duration) && (duration <=? 240) then score + 2
    else if 600 <? duration then score - 3
    else score in
  let score :=
    if (size video_words <=? 10)%nat then score + 1 else score in
  score.

(** Return the highest-scoring candidate above MIN_SCORE.  The loop
    state is the pair [(best, best_score)]. *)
Definition pick_step (title_words : gset str) (year : str)
    (is_show is_season : bool) (season_num : Z)
    (st : option Scored * Z) (c : Candidate) : option Scored * Z :=
  let score :=
    _score_candidate c title_words year is_show is_season season_num in
  if snd st <? score
  then (Some {| scored_candidate := c; scored_score := score |}, score)
  else st.

Definition _pick_best (candidates : list Candidate) (title_words : gset str)
    (year : str) (is_show is_season : bool) (season_num : Z)
    : option Scored :=
  fst (fold_left
         (pick_step title_words year is_show is_season season_num)
         candidates (None, MIN_SCORE - 1)).

End TrailerManager.

(** Build search queries using title + year + category + 'official
    trailer'.  Colons are stripped from titles. *)
Definition _build_queries (original_title en_title year : str)
    (is_show is_season : bool) (season_num : Z) : list str :=
  let en_title := strip_colons en_title in
  let original_title :=
    if truthy original_title then strip_colons original_title
    else original_title in
  let category := if is_show then lit "tv series" else lit "movie" in
  if is_season then
    let sn := format_d season_num in
    (if truthy original_title && negb (bool_decide (original_title = en_title))
     then [original_title ++ lit " season " ++ sn ++ lit " official trailer"]
     else [])
    ++ [en_title ++ lit " season " ++ sn ++ lit " official trailer"]
    ++ (if truthy year
        then [en_title ++ lit " season " ++ sn ++ lit " " ++ year
              ++ lit " trailer"]
        else [])
  else
    (* Primary: title + year + official trailer *)
    (if truthy year
     then [en_title ++ lit " " ++ year ++ lit " official trailer";
           en_title ++ lit " " ++ year ++ lit " " ++ category
           ++ lit " trailer"]
     else [])
    (* Without year *)
    ++ [en_title ++ lit " official trailer"]
    (* Original title variants (different language) *)
    ++ (if truthy original_title
           && negb (bool_decide (original_title = en_title))
        then (if truthy year
              then [original_title ++ lit " " ++ year
                    ++ lit " official trailer"]
              else [])
             ++ [original_title ++ lit " trailer"]
        else []).

(** *** The validated YouTube search *)

(** What the search sees of the outside: the pause before a query and
    the query with the records the collaborator returned for it. *)
Inductive SearchEvent :=
| Sleep (seconds : Z)
| Search (query : str) (results : list Candidate).

Definition youtube_url (best : Scored) : str :=
  lit "https://www.youtube.com/watch?v=" ++ cand_id (scored_candidate best).

(** [for r in results: ...]: the loop state is [(seen_ids, all_candidates)]. *)
Definition merge_step (st : gset str * list Candidate) (r : Candidate)
    : gset str * list Candidate :=
  let vid := cand_id r in
  if truthy vid && negb (bool_decide (vid ∈ st.1))
  then ({[vid]} ∪ st.1, st.2 ++ [r])
  else st.

Section Search.
Context {U : UnicodeData}.

(** [_yt_search_json]: the records the video-search collaborator
    returns for a query; its answer may depend on everything that
    happened before. *)
Variable _yt_search_json : list SearchEvent -> str -> list Candidate.

Variables (title_words : gset str) (year : str)
          (is_show is_season : bool) (season_num : Z).

(** [for qi, query in enumerate(queries): ...].  The result is the
    early match, if any, with the candidates accumulated and the
    events so far.  The log lines and the count of empty answers, which
    only feeds a log line, are left out. *)
Fixpoint search_loop (qi : nat) (queries : list str)
    (seen_ids : gset str) (all_candidates : list Candidate)
    (events : list SearchEvent)
    : option Scored * list Candidate * list SearchEvent :=
  match queries with
  | [] => (None, all_candidates, events)
  | query :: rest =>
      let events :=
        if (0 <? qi)%nat then events ++ [Sleep 2] else events in
      let results := _yt_search_json events query in
      let events := events ++ [Search query results] in
      let '(seen_ids, all_candidates) :=
        fold_left merge_step results (seen_ids, all_candidates) in
      (* Early-stop: if we already have a high-confidence match *)
      let best := _pick_best all_candidates title_words year
                    is_show is_season season_num in
      match best with
      | Some b =>
          if 12 <=? scored_score b
          then (Some b, all_candidates, events)
          else search_loop (S qi) rest seen_ids all_candidates events
      | None => search_loop (S qi) rest seen_ids all_candidates events
      end
  end.

End Search.

Section SearchValidated.
Context {U : UnicodeData}.
Variable _yt_search_json : list SearchEvent -> str -> list Candidate.

(** The search proper: the loop over the queries and the final pick,
    with the events of the search. *)
Definition validated_search (title_words : gset str) (year : str)
    (is_show is_season : bool) (season_num : Z) (queries : list str)
    : option str * list SearchEvent :=
  match search_loop _yt_search_json title_words year
          is_show is_season season_num 0 queries ∅ [] [] with
  | (Some best, _, events) => (Some (youtube_url best), events)
  | (None, all_candidates, events) =>
      (* Final pick from all candidates *)
      match _pick_best all_candidates title_words year
              is_show is_season season_num with
      | Some best => (Some (youtube_url best), events)
      | None => (None, events)
      end
  end.

(** Search YouTube, validate each result, return best match URL,
    together with the events of the search. *)
Definition _search_youtube_validated (original_title en_title year : str)
    (is_show is_season : bool) (season_num : Z)
    : option str * list SearchEvent :=
  let ref_title :=
    if truthy original_title then original_title else en_title in
  if negb (truthy ref_title) then (None, []) else
  let title_words := _extract_words ref_title in
  if bool_decide (title_words = ∅) then (None, []) else
  (* Build ordered list of search queries *)
  let queries := _build_queries original_title en_title year
                   is_show is_season season_num in
  validated_search title_words year is_show is_season season_num queries.

End SearchValidated.

(** ** tmdb_client.py *)

(** A result record of the catalog: a dict from field names to
    strings.  A field that is null reads as the empty string where the
    code guards it ([or '']), that is as a field that is missing. *)
Abbreviation Result := (gmap str str).

Section TmdbClient.
Context {U : UnicodeData}.

Definition _normalize_for_compare (text : str) : str :=
  let nfkd := nfkd text in
  let stripped := filter (fun c => starter c = true) nfkd in
  lower stripped.

Definition _title_words (text : str) : gset str :=
  list_to_set (findall_words (_normalize_for_compare text)).

(** Truthiness of [query_year : Optional[str]]. *)
Definition year_given (query_year : option str) : bool :=
  match query_year with
  | Some y => truthy y
  | None => false
  end.

(** [for result in results: ...]; [None] when the loop ends without
    returning. *)
Fixpoint find_valid (query_words : gset str) (query_year : option str)
    (title_key date_key : str) (results : list Result) : option Result :=
  match results with
  | [] => None
  | result :: rest =>
      let result_title := default [] (result !! title_key) in
      let result_words := _title_words result_title in
      let result_date := default [] (result !! date_key) in
      let result_year :=
        if (4 <=? length result_date)%nat then take 4 result_date else [] in
      (* Check year matches *)
      if year_given query_year
         && negb (bool_decide (Some result_year = query_year))
      then find_valid query_words query_year title_key date_key rest
      (* Check all query title words appear in result *)
      else if negb (bool_decide (query_words = ∅))
              && negb (bool_decide (query_words ⊆ result_words))
      then find_valid query_words query_year title_key date_key rest
      else Some result
  end.

Definition _find_best_match (results : list Result) (query_title : str)
    (query_year : option str) (title_key date_key : str) : option Result :=
  match results with
  | [] => None
  | first :: _ =>
      let query_words := _title_words query_title in
      match find_valid query_words query_year title_key date_key results with
      | Some result => Some result
      | None =>
          (* Fallback: return first result (TMDB relevance ranking) *)
          Some first
      end
  end.

End TmdbClient.

(** ** main.py *)

(** *** Trailer failure tracking *)

Definition TRAILER_MAX_ATTEMPTS : Z := 2.

(** Only permanently exclude items released before this year. *)
Definition EXCLUSION_YEAR_CUTOFF : Z := 2000.

(** One entry of the failures file.  A key the entry lacks is [None]. *)
Record Entry := {
  entry_count : option Z;
  entry_name : option str;
  entry_excluded : option bool
}.

Abbreviation Ledger := (gmap str Entry).

Definition failure_key (tmdb_id : str) : str := lit "tmdb-" ++ tmdb_id.

Definition _is_trailer_excluded (failures : Ledger) (tmdb_id : str) : bool :=
  let key := failure_key tmdb_id in
  match failures !! key with
  | Some entry => default false (entry_excluded entry)
  | None => false
  end.

(** Increment failure count.  Mark excluded if >= TRAILER_MAX_ATTEMPTS. *)
Definition _record_trailer_failure (failures : Ledger) (tmdb_id name : str)
    : Ledger :=
  let key := failure_key tmdb_id in
  let entry :=
    default {| entry_count := Some 0; entry_name := Some name;
               entry_excluded := Some false |} (failures !! key) in
  let count := default 0 (entry_count entry) + 1 in
  let entry :=
    {| entry_count := Some count; entry_name := Some name;
       entry_excluded :=
         if TRAILER_MAX_ATTEMPTS <=? count then Some true
         else entry_excluded entry |} in
  <[key := entry]> failures.

(** Remove from failure tracking on success. *)
Definition _record_trailer_success (failures : Ledger) (tmdb_id : str)
    : Ledger :=
  let key := failure_key tmdb_id in
  match failures !! key with
  | Some _ => delete key failures
  | None => failures
  end.

Section Main.
Context {U : UnicodeData}.

(** [re.search(r'\((\d{4})\)', name)]: the group of the leftmost match. *)
Definition match_year_at (s : str) : option str :=
  match s with
  | p :: d1 :: d2 :: d3 :: d4 :: q :: _ =>
      if N.eqb p 40 && is_digit d1 && is_digit d2 && is_digit d3
         && is_digit d4 && N.eqb q 41
      then Some [d1; d2; d3; d4] else None
  | _ => None
  end.

Fixpoint search_year (s : str) : option str :=
  match match_year_at s with
  | Some g => Some g
  | None => match s with [] => None | _ :: s' => search_year s' end
  end.

(** Extract release year from folder name like 'Title (2006)
    [tmdb-XXX]'.  Returns 0 if no year found. *)
Definition _extract_year_from_folder (name : str) : Z :=
  match search_year name with
  | Some g => int_of_digits g
  | None => 0
  end.

(** [re.search(r'\[tmdb-(\d+)\]', name)]: the group of the leftmost
    match.  The digits are taken greedily; giving one back never helps,
    since a digit is not a closing bracket. *)
Fixpoint take_digits (s : str) : str :=
  match s with
  | c :: s' => if is_digit c then c :: take_digits s' else []
  | [] => []
  end.

Definition match_tmdb_at (s : str) : option str :=
  if startswith (lit "[tmdb-") s then
    let rest := drop 6 s in
    let ds := take_digits rest in
    match ds, drop (length ds) rest with
    | _ :: _, c :: _ => if N.eqb c 93 then Some ds else None
    | _, _ => None
    end
  else None.

Fixpoint search_tmdb (s : str) : option str :=
  match match_tmdb_at s with
  | Some g => Some g
  | None => match s with [] => None | _ :: s' => search_tmdb s' end
  end.

(** *** Trailer with failure tracking *)

(** The outside world of one call: whether [trailer.mkv] is in the
    folder, and whether the download of the movie or show trailer
    succeeds.  A folder is known by its name. *)
Variable trailer_exists : str -> bool.
Variable _download_movie_trailer _download_show_trailer : str -> bool.

(** Download trailer for a folder, respecting exclusion rules.  The
    result is the failures mapping after the call. *)
Definition _handle_trailer (folder : str) (failures : Ledger)
    (is_show : bool) : Ledger :=
  if trailer_exists folder then failures else
  match search_tmdb folder with
  | None => failures
  | Some tmdb_id =>
      let year := _extract_year_from_folder folder in
      (* Only pre-2000 content can be permanently excluded *)
      if negb (year =? 0) && (year <? EXCLUSION_YEAR_CUTOFF)
         && _is_trailer_excluded failures tmdb_id
      then failures else
      let success :=
        if is_show then _download_show_trailer folder
        else _download_movie_trailer folder in
      if success then _record_trailer_success failures tmdb_id
      else if negb (year =? 0) && (year <? EXCLUSION_YEAR_CUTOFF)
      then _record_trailer_failure failures tmdb_id folder
      else failures
  end.

End Main.

(** *** Entry point *)

Section RunOnce.
(** The state of files, network and caches, and the exceptions
    ([Exception] instances) that the code of the run can raise. *)
Variables (World Exn : Type).


(** [_process_movie] and [_process_show]: the pipeline of one folder.
    It returns whether files changed, or raises; either way it may have
    changed the failures mapping and the world. *)
Variable _process_movie _process_show :
  str -> Ledger -> World -> (Exn + bool) * Ledger * World.

(** [MOVIES_PATH.exists()] and [sorted(f for f in MOVIES_PATH.iterdir()
    if ...)], the same for the shows: the sorted folders under a media
    path, [None] if the path does not exist, or the exception that the
    listing raised (the path is no directory, or may not be read). *)
Variable list_folders : bool -> World -> Exn + option (list str).

(** [TRAILER_FAILURES_FILE.parent.mkdir(...)] and
    [TRAILER_FAILURES_FILE.write_text(json.dumps(failures, ...))]: the
    exception raised, if any, and the world left. *)
Variable write_failures : Ledger -> World -> option Exn * World.

(** [isinstance(e, OSError)] *)
Variable is_OSError : Exn -> bool.

(** [JellyfinScanner.trigger_scan] and [StateManager.update_last_scan]:
    each does its work under [except Exception]. *)
Variable trigger_scan update_last_scan : World -> World.






End RunOnce.

(** ** What the results below ask of the database *)

(** Facts of the Unicode Character Database that the idempotence of
    tokenisation rests on:
    - a full decomposition is made of code points that decompose no
      further;
    - lowering a code point that has no decomposition and is not a
      combining mark (the capital sigma apart, which [lower] treats
      itself) gives code points of the same kind, which are
      already lower case and are not the capital sigma;
    - so are the two small sigmas. *)
Definition settled {U : UnicodeData} (d : char) : Prop :=
  decomposition d = [d] /\ combining d = 0%N /\ to_lower d = [d]
  /\ d <> capital_sigma.

Record UnicodeLaws (U : UnicodeData) : Prop := {
  decomposition_full :
    forall c d, d ∈ decomposition c -> decomposition d = [d];
  to_lower_settled :
    forall c d, decomposition c = [c] -> combining c = 0%N ->
      c <> capital_sigma -> d ∈ to_lower c -> settled d;
  sigma_settled : settled small_sigma /\ settled small_final_sigma
}.

(** The database treats ASCII as Unicode does. *)
Definition AsciiFaithful (U : UnicodeData) : Prop :=
  forall c, (c < 128)%N ->
    decomposition c = [c] /\ combining c = 0%N
    /\ to_lower c = [ascii_lower c].

Definition is_ascii (s : str) : Prop := Forall (fun c => (c < 128)%N) s.

(** ** The scorer as the specification words it *)

Section ScorerSpec.
Context {U : UnicodeData}.

(** The four hard conditions. *)
Definition hard_rejected (candidate : Candidate) (title_words : gset str)
    (is_season : bool) (season_num : Z) : Prop :=
  let tokens := _extract_words (cand_title candidate) in
  let norm_title := _normalize (cand_title candidate) in
  lit "trailer" ∉ tokens
  \/ ~ title_words ⊆ tokens
  \/ (exists kw, kw ∈ REJECT_KEYWORDS /\ contains kw norm_title = true)
  \/ (is_season = true /\ 0 < season_num
      /\ forall p, p ∈ season_pats season_num ->
           contains p norm_title = false).

(** The sum of the base and the bonuses. *)
Definition points (candidate : Candidate) (year : str) : Z :=
  let tokens := _extract_words (cand_title candidate) in
  let duration := default 0 (cand_duration candidate) in
  5
  + (if bool_decide (year ∈ tokens) then 3 else 0)
  + (if bool_decide (cand_channel_is_verified candidate = Some true)
     then 4 else 0)
  + (if bool_decide (lit "official" ∈ tokens \/ lit "oficial" ∈ tokens)
     then 3 else 0)
  + (if bool_decide (lit "red" ∈ tokens /\ lit "band" ∈ tokens)
     then 5 else 0)
  + (if bool_decide (30 <= duration <= 240) then 2
     else if bool_decide (600 < duration) then -3 else 0)
  + (if bool_decide (size tokens <= 10)%nat then 1 else 0).

End ScorerSpec.

(** The example of section 8 of the specification: the title, with the
    year as the specification's "year token present" asks, and the title
    alone. *)
Definition section8_candidate : Candidate := {|
  cand_id := lit "v1";
  cand_title := lit "Movie X Official Trailer 2020";
  cand_channel := lit "Studio";
  cand_channel_is_verified := Some true;
  cand_duration := Some 120
|}.

Definition section8_candidate_bare : Candidate := {|
  cand_id := lit "v1";
  cand_title := lit "Movie X Official Trailer";
  cand_channel := lit "Studio";
  cand_channel_is_verified := Some true;
  cand_duration := Some 120
|}.

Definition movie_x : gset str := {[ lit "movie"; lit "x" ]}.

(** A trailer that passes the hard checks and runs for more than ten
    minutes, with a title of more than ten words. *)
Definition long_candidate : Candidate := {|
  cand_id := lit "v2";
  cand_title :=
    lit "Movie X trailer and every other clip of the film in one long video";
  cand_channel := lit "Fan";
  cand_channel_is_verified := None;
  cand_duration := Some 700
|}.

(** ** The title match validator as the specification words it *)

Section ValidatorSpec.
Context {U : UnicodeData}.

(** When a query year is supplied (a non-empty string), the result
    has a date of at least four characters whose first four are the
    query year. *)
Definition year_matches (result : Result) (date_key : str)
    (query_year : option str) : Prop :=
  year_given query_year = true ->
  exists date, result !! date_key = Some date
               /\ (4 <= length date)%nat
               /\ Some (take 4 date) = query_year.

(** The tokens of the result's title include those of the query. *)
Definition title_matches (result : Result) (title_key query_title : str)
    : Prop :=
  _title_words query_title
    ⊆ _title_words (default [] (result !! title_key)).

Definition validated (query_title : str) (query_year : option str)
    (title_key date_key : str) (result : Result) : Prop :=
  year_matches result date_key query_year
  /\ title_matches result title_key query_title.

End ValidatorSpec.

(** The records of the example of section 8. *)
Definition dune_2021 : Result :=
  {[ lit "title" := lit "Dune"; lit "release_date" := lit "2021-10-01" ]}.

Definition dune_2024 : Result :=
  {[ lit "title" := lit "Dune Part Two";
     lit "release_date" := lit "2024-02-01" ]}.

(** ** The exclusion ledger as the specification words it *)

Section LedgerSpec.
Context {U : UnicodeData}.


End LedgerSpec.

(** Items released before the cut-off year. *)
Definition pre_cutoff (year : Z) : Prop :=
  year <> 0 /\ year < EXCLUSION_YEAR_CUTOFF.

(** ** The query builder as the specification words it *)

(** The parts of a query, one space between two of them. *)
Fixpoint spaced (parts : list str) : str :=
  match parts with
  | [] => []
  | [part] => part
  | part :: rest => part ++ lit " " ++ spaced rest
  end.


(** ** The trailer search as the specification words it *)

Definition issued_queries (events : list SearchEvent) : list str :=
  flat_map (fun e => match e with Search q _ => [q] | Sleep _ => [] end)
    events.

Definition responses (events : list SearchEvent) : list (list Candidate) :=
  flat_map (fun e => match e with Search _ r => [r] | Sleep _ => [] end)
    events.

(** The results deduplicated by identifier: of the records that carry
    an identifier, the first one of each identifier, in order. *)
Fixpoint keep_first (results : list Candidate) : list Candidate :=
  match results with
  | [] => []
  | r :: rest =>
      if truthy (cand_id r)
      then r :: filter (fun x => cand_id x <> cand_id r) (keep_first rest)
      else keep_first rest
  end.

Definition accumulate (rs : list (list Candidate)) : list Candidate :=
  keep_first (concat rs).

(** The best candidate is a high-confidence match. *)
Definition high_confidence (best : option Scored) : bool :=
  match best with
  | Some b => 12 <=? scored_score b
  | None => false
  end.

(** ** The run as the specification words it *)

Section RunSpec.
Variables (World Exn : Type).
Variable process : str -> Ledger -> World -> (Exn + bool) * Ledger * World.





End RunSpec.


(** The identifiers that a list of results carries. *)
Definition known_ids (results : list Candidate) : gset str :=
  list_to_set
    (map cand_id (filter (fun r => truthy (cand_id r) = true) results)).

(** The score of a candidate, the query fixed. *)
Definition score_of {U : UnicodeData} (title_words : gset str) (year : str)
    (is_show is_season : bool) (season_num : Z) (c : Candidate) : Z :=
  _score_candidate c title_words year is_show is_season season_num.

(** ** Sample inputs *)

(** Two folders, one on each side of the cut-off year. *)
Definition old_folder : str := lit "Metropolis (1927) [tmdb-19]".
Definition new_folder : str := lit "Dune (2021) [tmdb-438631]".

(** Three search results: two equally good trailers and an interview. *)
Definition trailer_a : Candidate := {|
  cand_id := lit "a1";
  cand_title := lit "Movie X Official Trailer 2020";
  cand_channel := lit "Studio";
  cand_channel_is_verified := Some true;
  cand_duration := Some 120
|}.

Definition trailer_b : Candidate := {|
  cand_id := lit "b2";
  cand_title := lit "Movie X 2020 Official Trailer";
  cand_channel := lit "Studio";
  cand_channel_is_verified := Some true;
  cand_duration := Some 150
|}.

Definition interview_c : Candidate := {|
  cand_id := lit "c3";
  cand_title := lit "Movie X trailer interview";
  cand_channel := lit "Press";
  cand_channel_is_verified := None;
  cand_duration := Some 90
|}.

(** A search collaborator that answers the first query with the
    interview and every later one with the two trailers. *)
Definition sample_search (events : list SearchEvent) (query : str)
    : list Candidate :=
  match events with
  | [] => [interview_c]
  | _ :: _ => [interview_c; trailer_a; trailer_b]
  end.

(** ** More of the code *)

(** *** tmdb_client.py and file_processor.py: the script of a text *)

(** The blocks the loop of [_is_latin_text] refuses: Hebrew, Arabic,
    Cyrillic and CJK. *)
Definition blocked_script (code : char) : bool :=
  (N.leb 0x0590 code && N.leb code 0x05FF)
  || (N.leb 0x0600 code && N.leb code 0x06FF)
  || (N.leb 0x0400 code && N.leb code 0x04FF)
  || (N.leb 0x4E00 code && N.leb code 0x9FFF).

(** [for char in text: ...] *)
Fixpoint latin_loop (text : str) : bool :=
  match text with
  | [] => true
  | code :: rest => if blocked_script code then false else latin_loop rest
  end.

(** Check if text uses Latin alphabet. *)
Definition _is_latin_text (text : str) : bool :=
  if negb (truthy text) then false else latin_loop text.

(** *** parsers.py *)

(** [name.replace(':', ' -')] *)
Definition replace_colons (name : str) : str :=
  flat_map (fun c => if N.eqb c colon then lit " -" else [c]) name.

(** The characters [re.sub] removes: less-than, greater-than, colon,
    double quote, slash, backslash, bar, question mark and star. *)
Definition invalid_char (c : char) : bool :=
  existsb (N.eqb c) [60; 62; 58; 34; 47; 92; 124; 63; 42]%N.

Section Parsers.
(** [str.isspace] of one character. *)
Variable isspace : char -> bool.

(** [s.split()]: the maximal runs of characters that are not white
    space.  [cur] is the run being read, last character first. *)
Fixpoint split_from (cur : str) (s : str) : list str :=
  match s with
  | [] => flush cur []
  | c :: rest =>
      if isspace c then flush cur (split_from [] rest)
      else split_from (c :: cur) rest
  end.

Definition split_whitespace (s : str) : list str := split_from [] s.

(** [s.lstrip()], [s.rstrip()], [s.strip()] *)
Fixpoint lstrip (s : str) : str :=
  match s with
  | c :: rest => if isspace c then lstrip rest else s
  | [] => []
  end.

Definition rstrip (s : str) : str := reverse (lstrip (reverse s)).

Definition strip (s : str) : str := rstrip (lstrip s).

(** Remove/replace characters that are invalid in filenames. *)
Definition sanitize_filename (name : str) : str :=
  (* Replace colons with dash *)
  let name := replace_colons name in
  (* Remove other invalid characters *)
  let name := filter (fun c => invalid_char c = false) name in
  (* Remove multiple spaces *)
  let name := spaced (split_whitespace name) in
  strip name.

(** Generate canonical episode file name (sanitized). *)
Definition get_canonical_episode_name (show_name : str) (season episode : Z)
    (episode_title : str) : str :=
  let episode_title := sanitize_filename episode_title in
  let name :=
    show_name ++ lit " - S" ++ format_02d season ++ lit "E"
    ++ format_02d episode ++ lit " - " ++ episode_title in
  sanitize_filename name.

(** Generate canonical movie folder/file name (sanitized). *)
Definition get_canonical_movie_name (title year tmdb_id : str) : str :=
  let name :=
    title ++ lit " (" ++ year ++ lit ") [tmdb-" ++ tmdb_id ++ lit "]" in
  sanitize_filename name.

End Parsers.

(** White space among the ASCII characters. *)
Definition ascii_isspace (c : char) : bool :=
  (N.leb 9 c && N.leb c 13) || (N.leb 28 c && N.leb c 32).

(** *** trailer_manager.py: the public API *)

(** [self.stats] *)
Record TrailerStats := {
  trailers_downloaded : Z;
  trailers_failed : Z
}.

Definition count_downloaded (stats : TrailerStats) : TrailerStats :=
  {| trailers_downloaded := trailers_downloaded stats + 1;
     trailers_failed := trailers_failed stats |}.

Definition count_failed (stats : TrailerStats) : TrailerStats :=
  {| trailers_downloaded := trailers_downloaded stats;
     trailers_failed := trailers_failed stats + 1 |}.

Section DownloadTrailer.
Context {U : UnicodeData}.
Variable Exn : Type.

(** Whether [trailer.mkv] is in the folder; the check may raise. *)
Variable trailer_exists : str -> Exn + bool.
Variable _yt_search_json : list SearchEvent -> str -> list Candidate.
(** [_download_with_ytdlp url path]; it catches its own errors. *)
Variable _download_with_ytdlp : str -> str -> bool.

(** Download trailer via validated YouTube search.  The result is the
    value returned and the counters after the call. *)
Definition download_trailer (stats : TrailerStats)
    (folder original_title en_title year : str) (is_show : bool)
    : bool * TrailerStats :=
  match trailer_exists folder with
  | inl e => (false, count_failed stats)
  | inr true => (true, stats)
  | inr false =>
      let yt_url :=
        (_search_youtube_validated _yt_search_json original_title en_title
           year is_show false 0).1 in
      match yt_url with
      | Some url =>
          if negb (truthy url) then (false, count_failed stats)
          else if _download_with_ytdlp url folder
          then (true, count_downloaded stats)
          else (false, count_failed stats)
      | None => (false, count_failed stats)
      end
  end.

End DownloadTrailer.

(** *** trailer_manager.py: season trailers *)

(** [s.split('(')[0]]: the text before the first opening parenthesis. *)
Fixpoint before_paren (s : str) : str :=
  match s with
  | c :: rest => if N.eqb c 40 then [] else c :: before_paren rest
  | [] => []
  end.

(** [a <= b] on strings: the order of [sorted]. *)
Fixpoint str_leb (a b : str) : bool :=
  match a, b with
  | [], _ => true
  | _ :: _, [] => false
  | x :: a', y :: b' =>
      if N.ltb x y then true
      else if N.eqb x y then str_leb a' b'
      else false
  end.

Definition str_le (a b : str) : Prop := str_leb a b = true.

Global Instance str_le_dec : RelDecision str_le :=
  fun a b => decide (str_leb a b = true).

(** What the loop over the seasons does: it finds a trailer in place,
    or searches and downloads one. *)
Inductive SeasonEvent :=
| SeasonExists (season_num : Z)
| SeasonTried (season_num : Z) (downloaded : bool).

Record SeasonState := {
  seasons_found : Z;
  consecutive_misses : Z;
  season_stats : TrailerStats;
  season_events : list SeasonEvent
}.

Section SeasonTrailers.
Context {U : UnicodeData}.

(** [int(season_folder.name.split()[1])], [None] when it raises. *)
Variable season_number : str -> option Z.
(** Whether [trailer.mkv] is in the season folder. *)
Variable trailer_exists : str -> bool.
(** The search collaborator; its answers may depend on what the loop
    did before. *)
Variable _yt_search_json :
  list SeasonEvent -> list SearchEvent -> str -> list Candidate.
Variable _download_with_ytdlp : str -> str -> bool.

Variables original_name en_name : str.

(** [for season_folder in sorted(season_folders): ...] *)
Fixpoint season_loop (folders : list str) (st : SeasonState) : SeasonState :=
  match folders with
  | [] => st
  | season_folder :: rest =>
      match season_number season_folder with
      | None => season_loop rest st
      | Some season_num =>
          (* Skip Season 01 - show-level trailer covers it *)
          if season_num =? 1 then season_loop rest st
          else if trailer_exists season_folder then
            season_loop rest
              {| seasons_found := seasons_found st;
                 consecutive_misses := 0;
                 season_stats := season_stats st;
                 season_events :=
                   season_events st ++ [SeasonExists season_num] |}
          else
            let yt_url :=
              (_search_youtube_validated (_yt_search_json (season_events st))
                 original_name en_name [] true true season_num).1 in
            let downloaded :=
              match yt_url with
              | Some url =>
                  truthy url && _download_with_ytdlp url season_folder
              | None => false
              end in
            let events :=
              season_events st ++ [SeasonTried season_num downloaded] in
            if downloaded then
              season_loop rest
                {| seasons_found := seasons_found st + 1;
                   consecutive_misses := 0;
                   season_stats := count_downloaded (season_stats st);
                   season_events := events |}
            else
              let misses := consecutive_misses st + 1 in
              let st :=
                {| seasons_found := seasons_found st;
                   consecutive_misses := misses;
                   season_stats := season_stats st;
                   season_events := events |} in
              if 2 <=? misses then st else season_loop rest st
      end
  end.

End SeasonTrailers.

Section DownloadSeasonTrailers.
Context {U : UnicodeData}.
Variable isspace : char -> bool.
Variable season_number : str -> option Z.
Variable trailer_exists : str -> bool.
Variable _yt_search_json :
  list SeasonEvent -> list SearchEvent -> str -> list Candidate.
Variable _download_with_ytdlp : str -> str -> bool.

(** Download trailers for individual seasons via YouTube search.
    [subfolders] are the names of the directories in the show folder. *)
Definition _download_season_trailers (stats : TrailerStats)
    (show_folder : str) (subfolders : list str)
    (original_name en_name : str) : SeasonState :=
  let season_folders :=
    filter (fun name => startswith (lit "Season") name = true) subfolders in
  let start :=
    {| seasons_found := 0; consecutive_misses := 0;
       season_stats := stats; season_events := [] |} in
  match season_folders with
  | [] => start
  | _ :: _ =>
      let en_name :=
        if negb (truthy en_name)
        then strip isspace (before_paren show_folder)
        else en_name in
      season_loop season_number trailer_exists _yt_search_json
        _download_with_ytdlp original_name en_name
        (merge_sort str_le season_folders) start
  end.

End DownloadSeasonTrailers.

(** ** The selection and the merge, for the results below *)

(** What the selection loop holds: the score of the pick, or
    [MIN_SCORE - 1] when there is none. *)
Definition held_score (best : option Scored) : Z :=
  match best with Some b => scored_score b | None => MIN_SCORE - 1 end.

(** The merge of the answers of several queries, one after the
    other, from the empty state. *)
Definition merge_all (rs : list (list Candidate))
    : gset str * list Candidate :=
  fold_left (fun st results => fold_left merge_step results st) rs (∅, []).

(** ** The trace of a search, for the results below *)

(** The events of a search that issued the given queries with the
    given answers: no pause before the first query, a pause of two
    seconds before each later one. *)
Definition paced (searches : list (str * list Candidate))
    : list SearchEvent :=
  match searches with
  | [] => []
  | (query, results) :: rest =>
      Search query results
      :: flat_map (fun '(query, results) => [Sleep 2; Search query results])
           rest
  end.

(** The searches a trace shows, each query with its answer. *)
Definition searches_of (events : list SearchEvent)
    : list (str * list Candidate) :=
  flat_map (fun e => match e with
                     | Search q r => [(q, r)]
                     | Sleep _ => []
                     end) events.

(** A candidate that some answer of the trace holds. *)
Definition answered (events : list SearchEvent) (c : Candidate) : Prop :=
  exists query results, Search query results ∈ events /\ c ∈ results.

(** Every answer of the trace is the collaborator's, for the events
    before it. *)
Definition faithful_trace
    (_yt_search_json : list SearchEvent -> str -> list Candidate)
    (events : list SearchEvent) : Prop :=
  forall pre query results post,
    events = pre ++ Search query results :: post ->
    results = _yt_search_json pre query.

(** ** The events of the loop over the seasons, for the results below *)

Definition event_season (e : SeasonEvent) : Z :=
  match e with SeasonExists n => n | SeasonTried n _ => n end.

(** A search that ended in a download, and one that did not. *)
Definition is_download (e : SeasonEvent) : bool :=
  match e with SeasonTried _ true => true | _ => false end.




(** The number of searches that ended in a download. *)
Fixpoint downloads (events : list SeasonEvent) : Z :=
  match events with
  | e :: rest => (if is_download e then 1 else 0) + downloads rest
  | [] => 0
  end.

(** What the loop has added to the state [st] when it is at [st']:
    the events [new], as many seasons found and downloads counted as
    [new] has downloads, no failure counted, and events of seasons other
    than 1 that the folders number. *)
Definition season_added (season_number : str -> option Z)
    (folders : list str) (st st' : SeasonState) (new : list SeasonEvent)
    : Prop :=
  season_events st' = season_events st ++ new
  /\ seasons_found st' = seasons_found st + downloads new
  /\ trailers_downloaded (season_stats st')
     = trailers_downloaded (season_stats st) + downloads new
  /\ trailers_failed (season_stats st') = trailers_failed (season_stats st)
  /\ Forall (fun e => event_season e <> 1
                      /\ exists folder,
                           folder ∈ folders
                           /\ season_number folder = Some (event_season e))
       new.

(** ** The code on sample inputs *)

Example extract_words_sample :
  elements (@_extract_words ascii_data (lit "Movie X: Official Trailer (2020)"))
  = elements
      (list_to_set (map lit ["movie"; "x"; "official"; "trailer"; "2020"])
         : gset str).
Proof. vm_compute. reflexivity. Qed.

Example format_sample :
  format_02d 3 = lit "03" /\ format_d 12 = lit "12"
  /\ format_02d (-1) = lit "-1" /\ format_02d 0 = lit "00".
Proof. vm_compute. auto. Qed.

Example season_pats_sample :
  season_pats 3
  = map lit ["season 3"; "sezon 3"; "sezonul 3"; "sez 3"; "s03"; "s3 ";
             "series 3"; "seria 3"].
Proof. vm_compute. reflexivity. Qed.

Example build_queries_sample :
  _build_queries (lit "Dincolo de bine") (lit "Beyond Good") (lit "2022")
    false false 0
  = map lit ["Beyond Good 2022 official trailer";
             "Beyond Good 2022 movie trailer";
             "Beyond Good official trailer";
             "Dincolo de bine 2022 official trailer";
             "Dincolo de bine trailer"].
Proof. vm_compute. reflexivity. Qed.

Example build_queries_season_sample :
  _build_queries (lit "La Casa: de Papel") (lit "Money Heist") [] true true 2
  = map lit ["La Casa de Papel season 2 official trailer";
             "Money Heist season 2 official trailer"].
Proof. vm_compute. reflexivity. Qed.

Example score_samples :
  @_score_candidate ascii_data trailer_a movie_x (lit "2020") false false 0
  = 18
  /\ @_score_candidate ascii_data interview_c movie_x (lit "2020")
       false false 0 = -1
  /\ @_score_candidate ascii_data trailer_a movie_x (lit "2020") true true 3
     = -1.
Proof. vm_compute. auto. Qed.

Example pick_best_sample :
  @_pick_best ascii_data [interview_c; trailer_a; trailer_b] movie_x
    (lit "2020") false false 0
  = Some {| scored_candidate := trailer_a; scored_score := 18 |}.
Proof. vm_compute. reflexivity. Qed.

Example validated_search_sample :
  @validated_search ascii_data sample_search movie_x (lit "2020")
    false false 0
    (map lit ["Movie X 2020 official trailer"; "Movie X 2020 movie trailer";
              "Movie X official trailer"])
  = (Some (lit "https://www.youtube.com/watch?v=a1"),
     [Search (lit "Movie X 2020 official trailer") [interview_c];
      Sleep 2;
      Search (lit "Movie X 2020 movie trailer")
        [interview_c; trailer_a; trailer_b]]).
Proof. vm_compute. reflexivity. Qed.

Example find_best_match_samples :
  @_find_best_match ascii_data [dune_2021; dune_2024] (lit "Dune")
    (Some (lit "2021")) (lit "title") (lit "release_date") = Some dune_2021
  /\ @_find_best_match ascii_data [dune_2021; dune_2024] (lit "Dune")
       (Some (lit "2024")) (lit "title") (lit "release_date") = Some dune_2024
  /\ @_find_best_match ascii_data [dune_2021; dune_2024] (lit "Dune")
       None (lit "title") (lit "release_date") = Some dune_2021
  /\ @_find_best_match ascii_data [dune_2021; dune_2024] (lit "Part Two")
       (Some []) (lit "title") (lit "release_date") = Some dune_2024
  /\ @_find_best_match ascii_data [dune_2021; dune_2024] (lit "Alien")
       (Some (lit "1979")) (lit "title") (lit "release_date") = Some dune_2021.
Proof. repeat split; vm_compute; reflexivity. Qed.

Example folder_samples :
  @_extract_year_from_folder ascii_data old_folder = 1927
  /\ @search_tmdb ascii_data old_folder = Some (lit "19")
  /\ @_extract_year_from_folder ascii_data (lit "No year [tmdb-7]") = 0
  /\ @search_tmdb ascii_data (lit "A [tmdb-] [tmdb-12x] [tmdb-7]")
     = Some (lit "7").
Proof. vm_compute. auto. Qed.

Example handle_trailer_samples :
  @_handle_trailer ascii_data (fun _ => false) (fun _ => false)
    (fun _ => false) old_folder ∅ false
  = {[ lit "tmdb-19" :=
         {| entry_count := Some 1; entry_name := Some old_folder;
            entry_excluded := Some false |} ]}
  /\ @_handle_trailer ascii_data (fun _ => false) (fun _ => false)
       (fun _ => false) new_folder ∅ false = ∅.
Proof. split; vm_compute; reflexivity. Qed.

(** ** Text normalisation *)

Section NormalizeFacts.
Context {U : UnicodeData}.

Lemma filter_insert_mark c acc :
  filter (fun c => starter c = true) (insert_mark c acc)
  = if starter c then c :: filter (fun c => starter c = true) acc
    else filter (fun c => starter c = true) acc.
Proof.
  induction acc as [|p acc IH]; simpl.
  - rewrite filter_cons, filter_nil.
    destruct (starter c); [rewrite decide_True by done|rewrite decide_False by done]; done.
  - destruct (starter c) eqn:Hc; simpl.
    + rewrite filter_cons, decide_True by done. done.
    + destruct (combining c <? combining p)%N.
      * rewrite !filter_cons, IH. done.
      * rewrite (filter_cons _ c), decide_False; [done|]. rewrite Hc. done.
Qed.

Lemma filter_fold_insert_mark s acc :
  filter (fun c => starter c = true)
    (reverse (fold_left (fun acc c => insert_mark c acc) s acc))
  = filter (fun c => starter c = true) (reverse acc ++ s).
Proof.
  revert acc. induction s as [|c s IH]; intros acc; simpl.
  - by rewrite app_nil_r.
  - rewrite IH, !filter_app, !filter_reverse, filter_insert_mark.
    destruct (starter c) eqn:Hc.
    + rewrite reverse_cons, filter_cons_True by done.
      by rewrite <- app_assoc.
    + rewrite filter_cons_False; [done|]. by rewrite Hc.
Qed.

(** Canonical ordering moves combining marks only: the other
    characters keep their places. *)
Lemma filter_canonical_order s :
  filter (fun c => starter c = true) (canonical_order s)
  = filter (fun c => starter c = true) s.
Proof. unfold canonical_order. by rewrite filter_fold_insert_mark. Qed.

Lemma canonical_order_starters s :
  Forall (fun c => starter c = true) s -> canonical_order s = s.
Proof.
  unfold canonical_order. intros Hs.
  enough (forall acc, fold_left (fun acc c => insert_mark c acc) s acc
                      = reverse s ++ acc) as ->
    by (by rewrite app_nil_r, reverse_involutive).
  induction Hs as [|c s Hc _ IH]; intros acc; simpl; [done|].
  rewrite IH, reverse_cons, <- app_assoc. f_equal. simpl.
  destruct acc as [|p acc]; simpl; [done|]. by rewrite Hc.
Qed.

Lemma starter_iff c : starter c = true <-> combining c = 0%N.
Proof. unfold starter. apply N.eqb_eq. Qed.

(** *** Normalising twice *)

Hypothesis laws : UnicodeLaws U.

Lemma decomposed_starters (t : str) :
  Forall (fun d => decomposition d = [d] /\ combining d = 0%N)
    (filter (fun c => starter c = true) (flat_map decomposition t)).
Proof.
  apply Forall_forall. intros d [Hd Hin]%list_elem_of_filter.
  apply list_elem_of_In, in_flat_map in Hin as (c & _ & Hin).
  apply list_elem_of_In in Hin. split.
  - eapply decomposition_full; eauto.
  - by apply starter_iff.
Qed.

Lemma lower_from_settled before (s : str) :
  Forall (fun d => decomposition d = [d] /\ combining d = 0%N) s ->
  Forall settled (lower_from before s).
Proof.
  intros Hs. revert before.
  induction Hs as [|c s [Hdec Hcomb] _ IH]; intros before; simpl; [done|].
  apply Forall_app. split; [|apply IH].
  destruct (N.eqb c capital_sigma) eqn:Hsig.
  - apply Forall_singleton.
    destruct (sigma_settled U laws) as [? ?].
    by destruct (final_sigma before s).
  - apply N.eqb_neq in Hsig. apply Forall_forall. intros d Hd.
    by eapply to_lower_settled.
Qed.

Lemma flat_map_decomposition_settled (s : str) :
  Forall settled s -> flat_map decomposition s = s.
Proof.
  induction 1 as [|d s (Hd & _) _ IH]; simpl; [done|].
  by rewrite Hd, IH.
Qed.

Lemma filter_starter_settled (s : str) :
  Forall settled s -> filter (fun c => starter c = true) s = s.
Proof.
  induction 1 as [|d s (_ & Hd & _) _ IH]; [done|].
  rewrite filter_cons_True by by apply starter_iff. by rewrite IH.
Qed.

Lemma lower_from_settled_id before (s : str) :
  Forall settled s -> lower_from before s = s.
Proof.
  intros Hs. revert before.
  induction Hs as [|d s (_ & _ & Hlow & Hsig) _ IH]; intros before; simpl;
    [done|].
  apply N.eqb_neq in Hsig. by rewrite Hsig, Hlow, IH.
Qed.

Lemma normalize_settled (t : str) : Forall settled (_normalize t).
Proof.
  unfold _normalize, nfkd, lower. rewrite filter_canonical_order.
  apply lower_from_settled, decomposed_starters.
Qed.

Lemma normalize_of_settled (s : str) : Forall settled s -> _normalize s = s.
Proof.
  intros Hs. unfold _normalize, nfkd, lower.
  rewrite flat_map_decomposition_settled by done.
  rewrite canonical_order_starters.
  - rewrite filter_starter_settled by done.
    by apply lower_from_settled_id.
  - eapply Forall_impl; [exact Hs|].
    intros d (_ & Hd & _). by apply starter_iff.
Qed.

Lemma normalize_idempotent (t : str) : _normalize (_normalize t) = _normalize t.
Proof. apply normalize_of_settled, normalize_settled. Qed.

End NormalizeFacts.

(** *** ASCII text *)

Lemma ascii_lower_idempotent c : ascii_lower (ascii_lower c) = ascii_lower c.
Proof.
  unfold ascii_lower.
  destruct (N.leb 65 c && N.leb c 90)%N eqn:H; [|by rewrite H].
  apply andb_true_iff in H as [H1%N.leb_le H2%N.leb_le].
  replace (N.leb (c + 32) 90) with false; [by rewrite andb_false_r|].
  symmetry. apply N.leb_gt. lia.
Qed.

Lemma ascii_lower_not_sigma c : ascii_lower c = capital_sigma -> c = capital_sigma.
Proof.
  unfold ascii_lower, capital_sigma.
  destruct (N.leb 65 c && N.leb c 90)%N eqn:H; [|done].
  apply andb_true_iff in H as [H1%N.leb_le H2%N.leb_le]. lia.
Qed.

Lemma ascii_data_laws : UnicodeLaws ascii_data.
Proof.
  split.
  - intros c d _. done.
  - intros c d _ _ Hc Hd. apply list_elem_of_singleton in Hd as ->.
    repeat split; simpl; [by rewrite ascii_lower_idempotent|].
    intros ?%ascii_lower_not_sigma. done.
  - split; repeat split; done.
Qed.

Lemma ascii_data_faithful : AsciiFaithful ascii_data.
Proof. intros c _. done. Qed.

Section AsciiText.
Context {U : UnicodeData}.
Hypothesis faithful : AsciiFaithful U.

Lemma normalize_ascii (t : str) :
  is_ascii t -> _normalize t = map ascii_lower t.
Proof.
  intros Ht. unfold _normalize, nfkd, lower.
  assert (flat_map decomposition t = t) as ->.
  { induction Ht as [|c t Hc _ IH]; simpl; [done|].
    destruct (faithful c Hc) as (-> & _). by rewrite IH. }
  assert (Forall (fun c => starter c = true) t) as Hst.
  { eapply Forall_impl; [exact Ht|]. intros c Hc. apply starter_iff.
    by destruct (faithful c Hc) as (_ & -> & _). }
  rewrite canonical_order_starters by done.
  assert (filter (fun c => starter c = true) t = t) as ->.
  { clear Ht. induction Hst as [|c t Hc _ IH]; [done|].
    by rewrite filter_cons_True, IH. }
  clear Hst. generalize (@nil char) as before.
  induction Ht as [|c t Hc _ IH]; intros before; simpl; [done|].
  destruct (faithful c Hc) as (_ & _ & ->).
  replace (N.eqb c capital_sigma) with false.
  - simpl. by rewrite IH.
  - symmetry. apply N.eqb_neq. unfold capital_sigma. lia.
Qed.

End AsciiText.

Lemma normalize_ascii_data (U : UnicodeData) (t : str) :
  AsciiFaithful U -> is_ascii t -> _normalize t = @_normalize ascii_data t.
Proof.
  intros HU Ht. rewrite normalize_ascii by done.
  by rewrite (@normalize_ascii ascii_data ascii_data_faithful).
Qed.

Lemma extract_words_ascii_data (U : UnicodeData) (t : str) :
  AsciiFaithful U -> is_ascii t ->
  _extract_words t = @_extract_words ascii_data t.
Proof.
  intros HU Ht. unfold _extract_words. by rewrite normalize_ascii_data.
Qed.

(** C8.  Tokenisation is idempotent: for every string [t], tokenising
    [t] gives the same word set as tokenising the normalised form of
    [t], [_extract_words(t) == _extract_words(_normalize(t))].  The
    database is any one in which decompositions are full and lower-case
    mappings of undecomposable base characters are themselves
    undecomposable, base and lower case ([UnicodeLaws]). *)
Theorem extract_words_normalize (U : UnicodeData) (laws : UnicodeLaws U)
    (t : str) :
  _extract_words t = _extract_words (_normalize t).
Proof. unfold _extract_words. by rewrite normalize_idempotent. Qed.

(** The theorem at the ASCII database and a sample title. *)
Lemma extract_words_normalize_witness :
  UnicodeLaws ascii_data
  /\ @_extract_words ascii_data (lit "Die Hard: Trailer")
     = @_extract_words ascii_data (@_normalize ascii_data (lit "Die Hard: Trailer")).
Proof.
  split; [exact ascii_data_laws|].
  exact (extract_words_normalize ascii_data ascii_data_laws (lit "Die Hard: Trailer")).
Defined.

(** ** The scorer *)

Lemma existsb_contains (l : list str) (s : str) :
  existsb (fun p => contains p s) l = true
  <-> exists p, p ∈ l /\ contains p s = true.
Proof.
  rewrite existsb_exists. split; intros (p & Hp & Hc); exists p; split;
    try done; by apply list_elem_of_In.
Qed.

Lemma existsb_contains_false (l : list str) (s : str) :
  existsb (fun p => contains p s) l = false
  <-> forall p, p ∈ l -> contains p s = false.
Proof.
  rewrite <- not_true_iff_false, existsb_contains. split.
  - intros Hn p Hp. destruct (contains p s) eqn:E; [|done].
    exfalso. apply Hn. eauto.
  - intros Hall (p & Hp & Hc). rewrite (Hall p Hp) in Hc. done.
Qed.

Lemma findall_words_from_nonempty (cur s : str) :
  Forall (fun w => w <> []) (findall_words_from cur s).
Proof.
  revert cur. induction s as [|c s IH]; intros cur; simpl.
  - destruct cur as [|a cur]; simpl; [done|].
    apply Forall_singleton. rewrite reverse_cons. by destruct (reverse cur).
  - destruct (is_word_char c); [apply IH|].
    destruct cur as [|a cur]; simpl; [apply IH|].
    apply Forall_cons. split; [|apply IH].
    rewrite reverse_cons. by destruct (reverse cur).
Qed.

Section ScorerFacts.
Context {U : UnicodeData}.

Lemma extract_words_nonempty (t : str) : [] ∉ _extract_words t.
Proof.
  unfold _extract_words. rewrite elem_of_list_to_set. intros Hin.
  pose proof (findall_words_from_nonempty [] (_normalize t)) as Hall.
  rewrite Forall_forall in Hall. by apply (Hall [] Hin).
Qed.

Lemma year_token (year t : str) :
  truthy year && bool_decide (year ∈ _extract_words t)
  = bool_decide (year ∈ _extract_words t).
Proof.
  destruct year as [|c year]; simpl; [|done].
  symmetry. apply bool_decide_eq_false, extract_words_nonempty.
Qed.

(** The score of a candidate that is not rejected, and the bounds
    the bonuses give it. *)
Lemma points_bounds (c : Candidate) (year : str) :
  2 <= points c year <= 23
  /\ (default 0 (cand_duration c) <= 600 -> 5 <= points c year).
Proof.
  unfold points. repeat case_bool_decide; lia.
Qed.

(** The running total of the scorer is the sum of its bonuses. *)
Lemma tally_sum (byear bver boff bred : bool) (d : Z) (n : nat) :
  (let score := 5 in
   let score := if byear then score + 3 else score in
   let score := if bver then score + 4 else score in
   let score := if boff then score + 3 else score in
   let score := if bred then score + 5 else score in
   let score :=
     if (30 <=? d) && (d <=? 240) then score + 2
     else if 600 <? d then score - 3
     else score in
   let score := if (n <=? 10)%nat then score + 1 else score in
   score)
  = 5 + (if byear then 3 else 0) + (if bver then 4 else 0)
    + (if boff then 3 else 0) + (if bred then 5 else 0)
    + (if (30 <=? d) && (d <=? 240) then 2
       else if 600 <? d then -3 else 0)
    + (if (n <=? 10)%nat then 1 else 0).
Proof.
  destruct byear, bver, boff, bred, ((30 <=? d) && (d <=? 240)),
    (600 <? d), (n <=? 10)%nat; reflexivity.
Qed.

Lemma points_code (c : Candidate) (year : str) :
  let video_words := _extract_words (cand_title c) in
  let duration := default 0 (cand_duration c) in
  5 + (if truthy year && bool_decide (year ∈ video_words) then 3 else 0)
    + (if default false (cand_channel_is_verified c) then 4 else 0)
    + (if bool_decide (lit "official" ∈ video_words)
          || bool_decide (lit "oficial" ∈ video_words) then 3 else 0)
    + (if bool_decide (lit "red" ∈ video_words)
          && bool_decide (lit "band" ∈ video_words) then 5 else 0)
    + (if (30 <=? duration) && (duration <=? 240) then 2
       else if 600 <? duration then -3 else 0)
    + (if (size video_words <=? 10)%nat then 1 else 0)
  = points c year.
Proof.
  intros video_words duration. unfold points.
  fold video_words. fold duration.
  pose proof (year_token year (cand_title c)) as Hy.
  fold video_words in Hy. rewrite Hy.
  rewrite bool_decide_or, bool_decide_and.
  assert (default false (cand_channel_is_verified c)
          = bool_decide (cand_channel_is_verified c = Some true)) as ->.
  { by destruct (cand_channel_is_verified c) as [[]|]. }
  assert ((30 <=? duration) && (duration <=? 240)
          = bool_decide (30 <= duration <= 240)) as ->.
  { destruct (Z.leb_spec 30 duration), (Z.leb_spec duration 240);
      cbn [andb]; symmetry;
      (apply bool_decide_eq_true_2 || apply bool_decide_eq_false_2); lia. }
  assert ((600 <? duration) = bool_decide (600 < duration)) as ->.
  { destruct (Z.ltb_spec 600 duration); symmetry;
      (apply bool_decide_eq_true_2 || apply bool_decide_eq_false_2); lia. }
  assert ((size video_words <=? 10)%nat
          = bool_decide (size video_words <= 10)%nat) as ->.
  { destruct (Nat.leb_spec (size video_words) 10); symmetry;
      (apply bool_decide_eq_true_2 || apply bool_decide_eq_false_2); lia. }
  done.
Qed.

Lemma score_candidate_spec (c : Candidate) (title_words : gset str)
    (year : str) (is_show is_season : bool) (season_num : Z) :
  (hard_rejected c title_words is_season season_num
   /\ _score_candidate c title_words year is_show is_season season_num = -1)
  \/ (~ hard_rejected c title_words is_season season_num
      /\ _score_candidate c title_words year is_show is_season season_num
         = points c year).
Proof.
  rewrite <- points_code.
  unfold _score_candidate, hard_rejected.
  set (tokens := _extract_words (cand_title c)).
  set (norm_title := _normalize (cand_title c)).
  destruct (decide (lit "trailer" ∈ tokens)) as [Htr|Htr];
    [rewrite (bool_decide_eq_true_2 _ Htr)
    |rewrite (bool_decide_eq_false_2 _ Htr); left; tauto].
  destruct (decide (title_words ⊆ tokens)) as [Hsub|Hsub];
    [rewrite (bool_decide_eq_true_2 _ Hsub)
    |rewrite (bool_decide_eq_false_2 _ Hsub); left; tauto].
  change (negb true) with false. cbv iota.
  destruct (existsb (fun kw => contains kw norm_title) REJECT_KEYWORDS)
    eqn:Hkw.
  { left. split; [|done]. right. right. left.
    by apply existsb_contains. }
  destruct (is_season && (0 <? season_num)
            && negb (existsb (fun p => contains p norm_title)
                       (season_pats season_num))) eqn:Hseason.
  { left. split; [|done]. right. right. right.
    apply andb_true_iff in Hseason as [Hs Hp].
    apply andb_true_iff in Hs as [Hs Hn].
    apply negb_true_iff in Hp. apply Z.ltb_lt in Hn.
    repeat split; try done. by apply existsb_contains_false. }
  right. split.
  - intros [?|[?|[Hex|(Hs & Hn & Hp)]]]; try done.
    + apply existsb_contains in Hex. congruence.
    + apply existsb_contains_false in Hp. apply Z.ltb_lt in Hn.
      rewrite Hs, Hn, Hp in Hseason. done.
  - apply tally_sum.
Qed.

End ScorerFacts.

Lemma score_candidate_ascii_data (U : UnicodeData) (c : Candidate)
    (title_words : gset str) (year : str) (is_show is_season : bool)
    (season_num : Z) :
  AsciiFaithful U -> is_ascii (cand_title c) ->
  _score_candidate c title_words year is_show is_season season_num
  = @_score_candidate ascii_data c title_words year is_show is_season
      season_num.
Proof.
  intros HU Hc. unfold _score_candidate.
  by rewrite normalize_ascii_data, extract_words_ascii_data.
Qed.

(** C2, counterexample to the claim as stated.  The example of
    section 8 does not score 17: with the year in the title it has five tokens and earns the
    conciseness point as well, 5+3+4+3+2+1 = 18; with the bare title the
    year is no token and it scores 5+4+3+2+1 = 15. *)
Lemma section8_score_not_17 :
  @_score_candidate ascii_data section8_candidate movie_x (lit "2020")
    false false 0 = 18
  /\ @_score_candidate ascii_data section8_candidate_bare movie_x (lit "2020")
       false false 0 = 15
  /\ 18 <> 17 /\ 15 <> 17.
Proof. repeat split; try done; vm_compute; reflexivity. Qed.

(** C2, as amended.  The scorer is a total function: it returns the
    rejected sentinel -1 exactly when one of the four hard conditions
    holds ('trailer' not a token; [title_words] not a subset of the
    tokens; a denylist substring in the normalised title; in season
    context with [season_num > 0], no season phrase in the normalised
    title); otherwise it returns 5, plus 3 if the year is a token, plus 4
    if the channel is verified, plus 3 for 'official' or 'oficial', plus 5
    for 'red' and 'band', plus 2 for a duration in [30, 240] or minus 3
    for one above 600, plus 1 for at most ten tokens.  The example of
    section 8 scores 18, and 15 when the year is not in its title. *)
Theorem score_candidate_total (U : UnicodeData) (c : Candidate)
    (title_words : gset str) (year : str) (is_show is_season : bool)
    (season_num : Z) :
  (hard_rejected c title_words is_season season_num
   <-> _score_candidate c title_words year is_show is_season season_num = -1)
  /\ (~ hard_rejected c title_words is_season season_num ->
      _score_candidate c title_words year is_show is_season season_num
      = points c year)
  /\ (AsciiFaithful U ->
      _score_candidate section8_candidate movie_x (lit "2020") false false 0
      = 18
      /\ _score_candidate section8_candidate_bare movie_x (lit "2020")
           false false 0 = 15).
Proof.
  assert (AsciiFaithful U ->
      _score_candidate section8_candidate movie_x (lit "2020") false false 0
      = 18
      /\ _score_candidate section8_candidate_bare movie_x (lit "2020")
           false false 0 = 15) as Hexample.
  { intros HU.
    split; (rewrite score_candidate_ascii_data;
      [by vm_compute|done|by apply (bool_decide_unpack _)]). }
  destruct (score_candidate_spec c title_words year is_show is_season
              season_num) as [[Hrej Hs]|[Hok Hs]].
  - split; [tauto|]. split; [tauto|exact Hexample].
  - pose proof (points_bounds c year) as [Hb _].
    split; [|split; [tauto|exact Hexample]].
    split; [tauto|]. rewrite Hs. lia.
Qed.

(** The theorem at the example of section 8. *)
Lemma score_candidate_total_witness :
  AsciiFaithful ascii_data
  /\ ~ @hard_rejected ascii_data section8_candidate movie_x false 0
  /\ @_score_candidate ascii_data section8_candidate movie_x (lit "2020")
       false false 0
     = @points ascii_data section8_candidate (lit "2020")
  /\ @_score_candidate ascii_data section8_candidate movie_x (lit "2020")
       false false 0 = 18.
Proof.
  pose proof (score_candidate_total ascii_data section8_candidate movie_x
                (lit "2020") false false 0) as (Hiff & Hpts & Hex).
  assert (~ @hard_rejected ascii_data section8_candidate movie_x false 0)
    as Hok.
  { intros Hrej%Hiff. vm_compute in Hrej. discriminate Hrej. }
  split; [exact ascii_data_faithful|].
  split; [exact Hok|].
  split; [exact (Hpts Hok)|].
  exact (proj1 (Hex ascii_data_faithful)).
Defined.

(** ** Best-candidate selection *)

Section PickBest.
Context {U : UnicodeData}.
Variables (title_words : gset str) (year : str)
          (is_show is_season : bool) (season_num : Z).

Local Abbreviation score_of :=
  (score_of title_words year is_show is_season season_num).
Local Abbreviation step :=
  (pick_step title_words year is_show is_season season_num).

(** The loop from any state: either no candidate beats the score held
    and the state is unchanged, or the state holds the first candidate
    of maximal score. *)
Lemma pick_fold (l : list Candidate) (best : option Scored) (held : Z) :
  ((forall c, c ∈ l -> score_of c <= held)
   /\ fold_left step l (best, held) = (best, held))
  \/ (exists i c,
        l !! i = Some c
        /\ fold_left step l (best, held)
           = (Some {| scored_candidate := c; scored_score := score_of c |},
              score_of c)
        /\ held < score_of c
        /\ (forall c', c' ∈ l -> score_of c' <= score_of c)
        /\ (forall j c', (j < i)%nat -> l !! j = Some c' ->
              score_of c' < score_of c)).
Proof.
  revert best held. induction l as [|a l IH]; intros best held.
  - left. split; [|done]. intros c Hc. by apply elem_of_nil in Hc.
  - cbn [fold_left].
    assert (step (best, held) a
            = if held <? score_of a
              then (Some {| scored_candidate := a;
                            scored_score := score_of a |}, score_of a)
              else (best, held)) as -> by done.
    destruct (Z.ltb_spec held (score_of a)) as [Hlt|Hge].
    + destruct (IH (Some {| scored_candidate := a;
                            scored_score := score_of a |}) (score_of a))
        as [[Hall Heq]|(i & c & Hi & Heq & Hlt' & Hmax & Hfirst)].
      * right. exists 0%nat, a. repeat split; try done.
        -- intros c' [->|Hc']%elem_of_cons; [lia|by apply Hall].
        -- intros j c' Hj. lia.
      * right. exists (S i), c. repeat split; try done; try lia.
        -- intros c' [->|Hc']%elem_of_cons; [lia|by apply Hmax].
        -- intros [|j] c' Hj Hc'; cbn in Hc'.
           ++ injection Hc' as <-. done.
           ++ apply (Hfirst j); [lia|done].
    + destruct (IH best held)
        as [[Hall Heq]|(i & c & Hi & Heq & Hlt' & Hmax & Hfirst)].
      * left. split; [|done].
        intros c' [->|Hc']%elem_of_cons; [lia|by apply Hall].
      * right. exists (S i), c. repeat split; try done.
        -- intros c' [->|Hc']%elem_of_cons; [lia|by apply Hmax].
        -- intros [|j] c' Hj Hc'; cbn in Hc'.
           ++ injection Hc' as <-. lia.
           ++ apply (Hfirst j); [lia|done].
Qed.

Lemma pick_best_spec (l : list Candidate) :
  match _pick_best l title_words year is_show is_season season_num with
  | Some b =>
      exists i,
        l !! i = Some (scored_candidate b)
        /\ scored_score b = score_of (scored_candidate b)
        /\ MIN_SCORE <= scored_score b
        /\ (forall c, c ∈ l -> score_of c <= scored_score b)
        /\ (forall j c, (j < i)%nat -> l !! j = Some c ->
              score_of c < scored_score b)
  | None => forall c, c ∈ l -> score_of c < MIN_SCORE
  end.
Proof.
  unfold _pick_best. fold step.
  destruct (pick_fold l None (MIN_SCORE - 1))
    as [[Hall ->]|(i & c & Hi & -> & Hlt & Hmax & Hfirst)]; cbn [fst].
  - intros c Hc. specialize (Hall c Hc). lia.
  - exists i. cbn. repeat split; try done. lia.
Qed.

Lemma pick_best_some (l : list Candidate) (c : Candidate) :
  c ∈ l -> MIN_SCORE <= score_of c ->
  is_Some (_pick_best l title_words year is_show is_season season_num).
Proof.
  intros Hc Hs. pose proof (pick_best_spec l) as Hspec.
  destruct (_pick_best l title_words year is_show is_season season_num);
    [done|].
  specialize (Hspec c Hc). lia.
Qed.

End PickBest.

(** C9.  Deterministic tie-breaking in best-candidate selection: for
    every candidate list, [_pick_best] returns a candidate whose score is
    maximal in the list and at least 5; when several candidates share
    that score it returns the earliest of them, as every candidate before
    it scores strictly less; it returns nothing when no candidate scores
    at least 5 (and only then). *)
Theorem pick_best_first_maximal (U : UnicodeData) (title_words : gset str)
    (year : str) (is_show is_season : bool) (season_num : Z)
    (candidates : list Candidate) :
  let score_of c :=
    _score_candidate c title_words year is_show is_season season_num in
  match _pick_best candidates title_words year is_show is_season
          season_num with
  | Some best =>
      exists i,
        candidates !! i = Some (scored_candidate best)
        /\ scored_score best = score_of (scored_candidate best)
        /\ 5 <= scored_score best
        /\ (forall c, c ∈ candidates -> score_of c <= scored_score best)
        /\ (forall j c, (j < i)%nat -> candidates !! j = Some c ->
              score_of c < scored_score best)
  | None => forall c, c ∈ candidates -> score_of c < 5
  end.
Proof. intros score_of. apply pick_best_spec. Qed.

(** C3, counterexample to the claim as stated.  A candidate that
    passes the four hard checks and scores below 5: a trailer of 700 seconds with a long
    title loses 3 points and earns no bonus, so it scores 2 and is never
    picked. *)
Lemma long_candidate_below_floor :
  ~ @hard_rejected ascii_data long_candidate movie_x false 0
  /\ @_score_candidate ascii_data long_candidate movie_x [] false false 0 = 2
  /\ @_pick_best ascii_data [long_candidate] movie_x [] false false 0 = None.
Proof.
  assert (@_score_candidate ascii_data long_candidate movie_x [] false false 0
          = 2) as Hs by (by vm_compute).
  split; [|split; [exact Hs|by vm_compute]].
  intros Hrej.
  destruct (@score_candidate_spec ascii_data long_candidate movie_x []
              false false 0) as [[_ H]|[H _]]; [|exact (H Hrej)].
  rewrite Hs in H. discriminate H.
Qed.

(** C3, as amended.  A candidate that passes the four hard checks
    always scores at least 2; when its duration does not exceed 600
    seconds it scores at least 5 (MIN_SCORE), and then the selection over
    any list that holds it returns a candidate. *)
Theorem passing_candidate_floor (U : UnicodeData) (c : Candidate)
    (title_words : gset str) (year : str) (is_show is_season : bool)
    (season_num : Z)
    (Hpass : ~ hard_rejected c title_words is_season season_num) :
  2 <= _score_candidate c title_words year is_show is_season season_num
  /\ (default 0 (cand_duration c) <= 600 ->
      MIN_SCORE
        <= _score_candidate c title_words year is_show is_season season_num
      /\ forall candidates, c ∈ candidates ->
           is_Some (_pick_best candidates title_words year is_show is_season
                      season_num)).
Proof.
  destruct (score_candidate_spec c title_words year is_show is_season
              season_num) as [[Hrej _]|[_ Hs]]; [exact (False_ind _ (Hpass Hrej))|].
  pose proof (points_bounds c year) as [Hb Hfloor].
  rewrite Hs. split; [lia|].
  intros Hd. specialize (Hfloor Hd). split; [exact Hfloor|].
  intros candidates Hc. eapply pick_best_some; [exact Hc|].
  unfold score_of. rewrite Hs. exact Hfloor.
Qed.

(** The theorem at a candidate that passes the hard checks. *)
Lemma passing_candidate_floor_witness :
  ~ @hard_rejected ascii_data section8_candidate movie_x false 0
  /\ 2 <= @_score_candidate ascii_data section8_candidate movie_x (lit "2020")
            false false 0
  /\ MIN_SCORE
       <= @_score_candidate ascii_data section8_candidate movie_x (lit "2020")
            false false 0.
Proof.
  assert (~ @hard_rejected ascii_data section8_candidate movie_x false 0)
    as Hok.
  { intros Hrej.
    destruct (@score_candidate_spec ascii_data section8_candidate movie_x
                (lit "2020") false false 0) as [[_ H]|[H _]];
      [|exact (H Hrej)].
    vm_compute in H. discriminate H. }
  pose proof (passing_candidate_floor ascii_data section8_candidate movie_x
                (lit "2020") false false 0 Hok) as (H2 & Hfloor).
  split; [exact Hok|]. split; [exact H2|].
  apply Hfloor. by vm_compute.
Defined.

(** ** Title match validation *)

Section Validator.
Context {U : UnicodeData}.
Variables (query_title : str) (query_year : option str)
          (title_key date_key : str).

Lemma year_check (result : Result) :
  let result_date := default [] (result !! date_key) in
  let result_year :=
    if (4 <=? length result_date)%nat then take 4 result_date else [] in
  year_given query_year
  && negb (bool_decide (Some result_year = query_year)) = false
  <-> year_matches result date_key query_year.
Proof.
  intros result_date result_year. unfold year_matches.
  destruct (year_given query_year) eqn:Hgiven; cbn [andb]; [|done].
  rewrite negb_false_iff, bool_decide_eq_true.
  destruct query_year as [y|]; [|done]. cbn in Hgiven.
  split.
  - intros Heq _. injection Heq as Heq. subst result_year.
    destruct (Nat.leb_spec 4 (length result_date)) as [Hlen|Hlen];
      [|by subst y].
    subst result_date. destruct (result !! date_key) as [date|] eqn:Hd.
    + exists date. by rewrite <- Heq.
    + cbn in Hlen. lia.
  - intros Hm. destruct Hm as (date & Hd & Hlen & Heq); [done|].
    subst result_year result_date. rewrite Hd. cbn [default id].
    apply Nat.leb_le in Hlen. by rewrite Hlen.
Qed.

Lemma title_check (query_words result_words : gset str) :
  negb (bool_decide (query_words = ∅))
  && negb (bool_decide (query_words ⊆ result_words)) = false
  <-> query_words ⊆ result_words.
Proof.
  destruct (decide (query_words ⊆ result_words)) as [Hsub|Hsub].
  - rewrite (bool_decide_eq_true_2 _ Hsub). cbn [negb].
    by rewrite andb_false_r.
  - rewrite (bool_decide_eq_false_2 _ Hsub). cbn [negb].
    rewrite andb_true_r, negb_false_iff, bool_decide_eq_true.
    split; [|done]. intros ->. exfalso. apply Hsub. set_solver.
Qed.

Lemma find_valid_cons (result : Result) (rest : list Result) :
  (validated query_title query_year title_key date_key result
   /\ find_valid (_title_words query_title) query_year title_key date_key
        (result :: rest) = Some result)
  \/ (~ validated query_title query_year title_key date_key result
      /\ find_valid (_title_words query_title) query_year title_key
           date_key (result :: rest)
         = find_valid (_title_words query_title) query_year title_key
             date_key rest).
Proof.
  unfold validated. cbn [find_valid].
  pose proof (year_check result) as Hy. cbv zeta in Hy.
  pose proof (title_check (_title_words query_title)
                (_title_words (default [] (result !! title_key)))) as Ht.
  fold (title_matches result title_key query_title) in Ht.
  destruct (year_given query_year && _) eqn:Hyc.
  - right. split; [|done]. intros [Hm _]. apply Hy in Hm. congruence.
  - destruct (negb (bool_decide (_title_words query_title = ∅)) && _)
      eqn:Htc.
    + right. split; [|done]. intros [_ Hm]. apply Ht in Hm. congruence.
    + left. split; [|done]. split; [by apply Hy|by apply Ht].
Qed.

Lemma find_valid_first (pre post : list Result) (result : Result) :
  Forall (fun r => ~ validated query_title query_year title_key date_key r)
    pre ->
  validated query_title query_year title_key date_key result ->
  find_valid (_title_words query_title) query_year title_key date_key
    (pre ++ result :: post) = Some result.
Proof.
  intros Hpre Hv. induction Hpre as [|r pre Hr _ IH].
  - rewrite app_nil_l.
    by destruct (find_valid_cons result post) as [[_ ->]|[? _]].
  - rewrite <- app_comm_cons.
    by destruct (find_valid_cons r (pre ++ result :: post))
      as [[? _]|[_ ->]].
Qed.

Lemma find_valid_none (results : list Result) :
  Forall (fun r => ~ validated query_title query_year title_key date_key r)
    results ->
  find_valid (_title_words query_title) query_year title_key date_key
    results = None.
Proof.
  induction 1 as [|r results Hr _ IH]; [done|].
  by destruct (find_valid_cons r results) as [[? _]|[_ ->]].
Qed.

End Validator.

(** C1.  Title match validation: [_find_best_match] goes through the
    results in the given order and returns the first one that (i) when a
    query year is supplied (a non-empty string: [None] and the empty
    string both switch the check off), has a date whose first four
    characters are the query year, a date that is missing or shorter
    than four characters not matching, and (ii) whose title tokens
    include the query's; if no result passes both checks it returns the
    first result of the list; on the empty list it returns nothing. *)
Theorem find_best_match_first_valid (U : UnicodeData)
    (results : list Result) (query_title : str) (query_year : option str)
    (title_key date_key : str) :
  let valid := validated query_title query_year title_key date_key in
  let found :=
    _find_best_match results query_title query_year title_key date_key in
  (results = [] -> found = None)
  /\ (forall pre result post,
        results = pre ++ result :: post ->
        Forall (fun r => ~ valid r) pre -> valid result ->
        found = Some result)
  /\ (forall first rest,
        results = first :: rest ->
        Forall (fun r => ~ valid r) results ->
        found = Some first).
Proof.
  intros valid found. subst found. unfold _find_best_match.
  split; [by intros ->|]. split.
  - intros pre result post -> Hpre Hv.
    rewrite (find_valid_first _ _ _ _ pre post result Hpre Hv).
    by destruct pre.
  - intros first rest -> Hall.
    by rewrite (find_valid_none _ _ _ _ _ Hall).
Qed.

(** ** The exclusion ledger *)

Lemma record_failure_lookup (failures : Ledger) (tmdb_id name : str) :
  _record_trailer_failure failures tmdb_id name !! failure_key tmdb_id
  = Some
      (let entry :=
         default {| entry_count := Some 0; entry_name := Some name;
                    entry_excluded := Some false |}
           (failures !! failure_key tmdb_id) in
       let count := default 0 (entry_count entry) + 1 in
       {| entry_count := Some count; entry_name := Some name;
          entry_excluded :=
            if TRAILER_MAX_ATTEMPTS <=? count then Some true
            else entry_excluded entry |}).
Proof. unfold _record_trailer_failure. by rewrite lookup_insert_eq. Qed.

Lemma record_failure_other (failures : Ledger) (tmdb_id name key : str) :
  key <> failure_key tmdb_id ->
  _record_trailer_failure failures tmdb_id name !! key = failures !! key.
Proof.
  intros Hne. unfold _record_trailer_failure. by rewrite lookup_insert_ne.
Qed.

Lemma record_success_lookup (failures : Ledger) (tmdb_id : str) :
  _record_trailer_success failures tmdb_id !! failure_key tmdb_id = None.
Proof.
  unfold _record_trailer_success.
  destruct (failures !! failure_key tmdb_id) eqn:H; [|done].
  apply lookup_delete_eq.
Qed.

Lemma record_success_delete (failures : Ledger) (tmdb_id : str) :
  _record_trailer_success failures tmdb_id
  = delete (failure_key tmdb_id) failures.
Proof.
  unfold _record_trailer_success.
  destruct (failures !! failure_key tmdb_id) eqn:H; [done|].
  symmetry. by apply delete_id.
Qed.

(** A failure that is recorded keeps the exclusion of its entry. *)
Lemma record_failure_sticky (failures : Ledger) (tmdb_id name : str) :
  _is_trailer_excluded failures tmdb_id = true ->
  _is_trailer_excluded (_record_trailer_failure failures tmdb_id name)
    tmdb_id = true.
Proof.
  unfold _is_trailer_excluded at 2. rewrite record_failure_lookup.
  unfold _is_trailer_excluded.
  destruct (failures !! failure_key tmdb_id) as [entry|]; [|done].
  cbn. intros Hex.
  by destruct (TRAILER_MAX_ATTEMPTS <=? default 0 (entry_count entry) + 1).
Qed.


(** C6.  The lifecycle of a ledger entry with threshold 2.  From a
    ledger with no entry for an identifier: one [record_failure] creates
    an entry with count 1, not excluded; a second one sets count 2 and
    the excluded flag; the flag, once set, stays set under any number of
    further [record_failure] calls; [record_success] deletes the entry; a
    [record_failure] after that creates a fresh entry with count 1, not
    excluded. *)
Theorem ledger_lifecycle (failures : Ledger) (tmdb_id : str)
    (name1 name2 name3 : str)
    (Hno_entry : failures !! failure_key tmdb_id = None) :
  let key := failure_key tmdb_id in
  let once := _record_trailer_failure failures tmdb_id name1 in
  let twice := _record_trailer_failure once tmdb_id name2 in
  let forgiven := _record_trailer_success twice tmdb_id in
  let again := _record_trailer_failure forgiven tmdb_id name3 in
  once !! key
  = Some {| entry_count := Some 1; entry_name := Some name1;
            entry_excluded := Some false |}
  /\ _is_trailer_excluded once tmdb_id = false
  /\ twice !! key
     = Some {| entry_count := Some 2; entry_name := Some name2;
               entry_excluded := Some true |}
  /\ _is_trailer_excluded twice tmdb_id = true
  /\ (forall (ledger : Ledger) (names : list str),
        _is_trailer_excluded ledger tmdb_id = true ->
        _is_trailer_excluded
          (fold_left (fun f name => _record_trailer_failure f tmdb_id name)
             names ledger) tmdb_id = true)
  /\ forgiven !! key = None
  /\ forgiven = failures
  /\ again !! key
     = Some {| entry_count := Some 1; entry_name := Some name3;
               entry_excluded := Some false |}
  /\ _is_trailer_excluded again tmdb_id = false.
Proof.
  intros key once twice forgiven again.
  assert (once !! key
          = Some {| entry_count := Some 1; entry_name := Some name1;
                    entry_excluded := Some false |}) as H1.
  { subst once key. by rewrite record_failure_lookup, Hno_entry. }
  assert (twice !! key
          = Some {| entry_count := Some 2; entry_name := Some name2;
                    entry_excluded := Some true |}) as H2.
  { subst twice. unfold key. rewrite record_failure_lookup.
    fold key. by rewrite H1. }
  assert (forgiven = failures) as H3.
  { subst forgiven twice once. rewrite record_success_delete.
    unfold _record_trailer_failure. fold key.
    rewrite insert_insert_eq, delete_insert_eq. by apply delete_id. }
  assert (again !! key
          = Some {| entry_count := Some 1; entry_name := Some name3;
                    entry_excluded := Some false |}) as H4.
  { subst again. unfold key. rewrite record_failure_lookup, H3.
    by rewrite Hno_entry. }
  split; [exact H1|].
  split; [unfold _is_trailer_excluded; fold key; by rewrite H1|].
  split; [exact H2|].
  split; [unfold _is_trailer_excluded; fold key; by rewrite H2|].
  split.
  { intros ledger names. revert ledger.
    induction names as [|name names IH]; intros ledger Hex; [done|].
    cbn [fold_left]. apply IH. by apply record_failure_sticky. }
  split; [by rewrite H3|].
  split; [exact H3|].
  split; [exact H4|].
  unfold _is_trailer_excluded. fold key. by rewrite H4.
Qed.

(** The theorem at the empty ledger. *)
Lemma ledger_lifecycle_witness :
  (∅ : Ledger) !! failure_key (lit "603") = None
  /\ _is_trailer_excluded
       (_record_trailer_failure
          (_record_trailer_failure ∅ (lit "603") (lit "The Matrix (1999)"))
          (lit "603") (lit "The Matrix (1999)"))
       (lit "603") = true.
Proof.
  split; [apply lookup_empty|].
  exact (proj1 (proj2 (proj2 (proj2
    (ledger_lifecycle ∅ (lit "603") (lit "The Matrix (1999)")
       (lit "The Matrix (1999)") (lit "The Matrix (1999)")
       (lookup_empty _)))))).
Defined.

(** ** Year-gated failure tracking *)

Section YearGate.
Context {U : UnicodeData}.

Lemma match_year_at_sound (s g : str) :
  match_year_at s = Some g ->
  exists after,
    s = lit "(" ++ g ++ lit ")" ++ after
    /\ length g = 4%nat
    /\ Forall (fun c => is_digit c = true) g.
Proof.
  unfold match_year_at.
  destruct s as [|p [|d1 [|d2 [|d3 [|d4 [|q after]]]]]]; try done.
  destruct (N.eqb_spec p 40) as [->|]; cbn [andb]; [|done].
  destruct (is_digit d1) eqn:H1; cbn [andb]; [|done].
  destruct (is_digit d2) eqn:H2; cbn [andb]; [|done].
  destruct (is_digit d3) eqn:H3; cbn [andb]; [|done].
  destruct (is_digit d4) eqn:H4; cbn [andb]; [|done].
  destruct (N.eqb_spec q 41) as [->|]; [|done].
  intros [= <-]. exists after. split; [done|]. split; [done|].
  by repeat constructor.
Qed.

Lemma search_year_sound (s g : str) :
  search_year s = Some g ->
  exists before after,
    s = before ++ lit "(" ++ g ++ lit ")" ++ after
    /\ length g = 4%nat
    /\ Forall (fun c => is_digit c = true) g.
Proof.
  induction s as [|c s IH].
  - cbn. done.
  - cbn [search_year].
    destruct (match_year_at (c :: s)) as [g'|] eqn:Hm.
    + intros [= <-]. apply match_year_at_sound in Hm as (after & ? & ? & ?).
      by exists [], after.
    + intros (before & after & -> & ? & ?)%IH.
      by exists (c :: before), after.
Qed.


Lemma pre_cutoff_test (year : Z) :
  negb (year =? 0) && (year <? EXCLUSION_YEAR_CUTOFF) = true
  <-> pre_cutoff year.
Proof.
  unfold pre_cutoff.
  rewrite andb_true_iff, negb_true_iff, Z.eqb_neq, Z.ltb_lt. done.
Qed.

End YearGate.

Lemma failure_key_inj (id1 id2 : str) :
  failure_key id1 = failure_key id2 -> id1 = id2.
Proof. unfold failure_key. apply app_inv_head. Qed.



Section HandleTrailer.
Context {U : UnicodeData}.
Variables trailer_exists download_movie download_show : str -> bool.
Variables (folder : str) (failures : Ledger) (is_show : bool).


End HandleTrailer.


(** ** The query builder *)

Lemma strip_colons_clean (s : str) : colon ∉ strip_colons s.
Proof.
  unfold strip_colons. intros [Hne _]%list_elem_of_filter. done.
Qed.

Lemma no_colon_app (a b : str) : colon ∉ a -> colon ∉ b -> colon ∉ a ++ b.
Proof. intros Ha Hb [?|?]%elem_of_app; done. Qed.

Lemma no_colon_lit (s : string) :
  bool_decide (colon ∉ lit s) = true -> colon ∉ lit s.
Proof. apply bool_decide_eq_true_1. Qed.

Lemma truthy_spec (s : str) : truthy s = true <-> s <> [].
Proof. by destruct s. Qed.

Lemma stripped_original (original_title : str) :
  (if truthy original_title then strip_colons original_title
   else original_title) = strip_colons original_title.
Proof. by destruct original_title. Qed.

Lemma differs_test (localized fallback : str) :
  truthy localized && negb (bool_decide (localized = fallback))
  = bool_decide (localized <> [] /\ localized <> fallback).
Proof.
  destruct localized as [|c localized]; cbn [truthy andb].
  - symmetry. apply bool_decide_eq_false_2. tauto.
  - destruct (decide (c :: localized = fallback)) as [Heq|Hne].
    + rewrite (bool_decide_eq_true_2 _ Heq). symmetry.
      apply bool_decide_eq_false_2. tauto.
    + rewrite (bool_decide_eq_false_2 _ Hne). symmetry.
      by apply bool_decide_eq_true_2.
Qed.




(** ** The run over the folders *)

Section RunFacts.
Variables (World Exn : Type).
Variable _process_movie _process_show :
  str -> Ledger -> World -> (Exn + bool) * Ledger * World.


End RunFacts.





(** ** The validated search *)

Lemma known_ids_cons (r : Candidate) (l : list Candidate) :
  known_ids (r :: l)
  = if truthy (cand_id r) then {[cand_id r]} ∪ known_ids l else known_ids l.
Proof.
  unfold known_ids. destruct (truthy (cand_id r)) eqn:Hr.
  - by rewrite filter_cons_True.
  - rewrite filter_cons_False; [done|]. by rewrite Hr.
Qed.

Lemma known_ids_app (l1 l2 : list Candidate) :
  known_ids (l1 ++ l2) = known_ids l1 ∪ known_ids l2.
Proof.
  unfold known_ids. by rewrite filter_app, map_app, list_to_set_app_L.
Qed.

Lemma filter_not_in_empty (seen : gset str) (l : list Candidate) :
  seen = ∅ -> filter (fun r => cand_id r ∉ seen) l = l.
Proof.
  intros ->. induction l as [|r l IH]; [done|].
  rewrite filter_cons_True by set_solver. by rewrite IH.
Qed.

Lemma keep_first_app (l1 l2 : list Candidate) :
  keep_first (l1 ++ l2)
  = keep_first l1
    ++ filter (fun r => cand_id r ∉ known_ids l1) (keep_first l2).
Proof.
  induction l1 as [|r l1 IH].
  - by rewrite app_nil_l, filter_not_in_empty.
  - rewrite <- app_comm_cons. cbn [keep_first]. rewrite known_ids_cons.
    destruct (truthy (cand_id r)); [|exact IH].
    rewrite IH, filter_app, <- app_comm_cons, list_filter_filter.
    do 2 f_equal. apply list_filter_iff. intros x. set_solver.
Qed.

(** The inner loop adds to the accumulator the records of the new
    results that [keep_first] keeps and whose identifier is not seen. *)
Lemma merge_fold (results : list Candidate) (seen_ids : gset str)
    (all_candidates : list Candidate) :
  fold_left merge_step results (seen_ids, all_candidates)
  = (known_ids results ∪ seen_ids,
     all_candidates
     ++ filter (fun r => cand_id r ∉ seen_ids) (keep_first results)).
Proof.
  revert seen_ids all_candidates.
  induction results as [|r results IH]; intros seen_ids all_candidates.
  - cbn. f_equal; [set_solver|by rewrite app_nil_r].
  - cbn [fold_left keep_first]. rewrite known_ids_cons.
    unfold merge_step at 2. cbn [fst snd].
    destruct (truthy (cand_id r)) eqn:Hr; cbn [andb]; [|by rewrite IH].
    destruct (decide (cand_id r ∈ seen_ids)) as [Hin|Hin].
    + rewrite (bool_decide_eq_true_2 _ Hin). cbn [negb]. rewrite IH.
      rewrite filter_cons_False by tauto. rewrite list_filter_filter.
      f_equal; [set_solver|]. f_equal. apply list_filter_iff.
      intros x. split; [|tauto]. intros Hx. split; [done|].
      intros Heq. by rewrite Heq in Hx.
    + rewrite (bool_decide_eq_false_2 _ Hin). cbn [negb]. rewrite IH.
      rewrite filter_cons_True by done. rewrite list_filter_filter.
      f_equal; [set_solver|]. rewrite <- app_assoc. cbn [app].
      do 2 f_equal. apply list_filter_iff. intros x. set_solver.
Qed.

Lemma merge_accumulate (rs : list (list Candidate))
    (results : list Candidate) :
  fold_left merge_step results (known_ids (concat rs), accumulate rs)
  = (known_ids (concat (rs ++ [results])), accumulate (rs ++ [results])).
Proof.
  rewrite merge_fold. unfold accumulate.
  rewrite concat_app. cbn [concat]. rewrite app_nil_r.
  rewrite keep_first_app, known_ids_app. f_equal. set_solver.
Qed.

Lemma responses_app (e1 e2 : list SearchEvent) :
  responses (e1 ++ e2) = responses e1 ++ responses e2.
Proof. apply flat_map_app. Qed.

Lemma issued_queries_app (e1 e2 : list SearchEvent) :
  issued_queries (e1 ++ e2) = issued_queries e1 ++ issued_queries e2.
Proof. apply flat_map_app. Qed.

Section SearchFacts.
Context {U : UnicodeData}.
Variable _yt_search_json : list SearchEvent -> str -> list Candidate.
Variables (title_words : gset str) (year : str)
          (is_show is_season : bool) (season_num : Z).

(** The loop from a state that holds the candidates accumulated from
    the responses so far: it issues a prefix of the queries, keeps the
    accumulator, passes over every point at which the best candidate
    is not a high-confidence one, and stops at the first at which it
    is. *)
Lemma search_loop_spec (queries : list str) (qi : nat)
    (events : list SearchEvent) :
  let best_of rs :=
    _pick_best (accumulate rs) title_words year is_show is_season
      season_num in
  let rs0 := responses events in
  let run :=
    search_loop _yt_search_json title_words year is_show is_season
      season_num qi queries (known_ids (concat rs0)) (accumulate rs0)
      events in
  exists new,
    responses run.2 = rs0 ++ new
    /\ issued_queries run.2
       = issued_queries events ++ take (length new) queries
    /\ (length new <= length queries)%nat
    /\ run.1.2 = accumulate (rs0 ++ new)
    /\ (forall k, (0 < k < length new)%nat ->
          high_confidence (best_of (rs0 ++ take k new)) = false)
    /\ match run.1.1 with
       | Some b =>
           best_of (rs0 ++ new) = Some b
           /\ high_confidence (Some b) = true
       | None =>
           length new = length queries
           /\ (new <> [] -> high_confidence (best_of (rs0 ++ new)) = false)
       end.
Proof.
  intros best_of. revert qi events.
  induction queries as [|query rest IH]; intros qi events rs0 run.
  - exists []. subst run. cbn. rewrite !app_nil_r. repeat split; try done.
    intros k Hk. lia.
  - subst run. cbn [search_loop].
    set (events1 := if (0 <? qi)%nat then events ++ [Sleep 2] else events).
    set (results := _yt_search_json events1 query).
    set (events2 := events1 ++ [Search query results]).
    assert (responses events2 = rs0 ++ [results]) as Hrs.
    { subst events2 events1 rs0.
      destruct (0 <? qi)%nat; rewrite !responses_app; cbn;
        by rewrite ?app_nil_r. }
    assert (issued_queries events2 = issued_queries events ++ [query])
      as Hqs.
    { subst events2 events1.
      destruct (0 <? qi)%nat; rewrite !issued_queries_app; cbn;
        by rewrite ?app_nil_r. }
    rewrite merge_accumulate. fold (best_of (rs0 ++ [results])).
    specialize (IH (S qi) events2). cbv zeta in IH. rewrite Hrs in IH.
    set (continued :=
           search_loop _yt_search_json title_words year is_show is_season
             season_num (S qi) rest (known_ids (concat (rs0 ++ [results])))
             (accumulate (rs0 ++ [results])) events2) in *.
    assert (high_confidence (best_of (rs0 ++ [results])) = false ->
            exists new,
              responses continued.2 = rs0 ++ new
              /\ issued_queries continued.2
                 = issued_queries events ++ take (length new) (query :: rest)
              /\ (length new <= length (query :: rest))%nat
              /\ continued.1.2 = accumulate (rs0 ++ new)
              /\ (forall k, (0 < k < length new)%nat ->
                    high_confidence (best_of (rs0 ++ take k new)) = false)
              /\ match continued.1.1 with
                 | Some b =>
                     best_of (rs0 ++ new) = Some b
                     /\ high_confidence (Some b) = true
                 | None =>
                     length new = length (query :: rest)
                     /\ (new <> [] ->
                         high_confidence (best_of (rs0 ++ new)) = false)
                 end) as search_loop_continue.
    { intros Hnot.
      destruct IH as (new & Hr & Hq & Hlen & Hacc & Hlow & Hend).
      exists (results :: new). cbn [length take].
      replace (rs0 ++ results :: new) with ((rs0 ++ [results]) ++ new)
        by (by rewrite <- app_assoc).
      split; [exact Hr|].
      split; [by rewrite Hq, Hqs, <- app_assoc|].
      split; [lia|].
      split; [exact Hacc|].
      split.
      - intros [|[|k]] Hk; [lia| |].
        + cbn [take]. by rewrite take_0.
        + replace (rs0 ++ take (S (S k)) (results :: new))
            with ((rs0 ++ [results]) ++ take (S k) new)
            by (by rewrite <- app_assoc).
          apply Hlow. lia.
      - destruct (continued.1.1) as [b'|]; [exact Hend|].
        destruct Hend as [Hn Hlast]. split; [lia|]. intros _.
        destruct new as [|r new]; [|by apply Hlast].
        by rewrite app_nil_r. }
    destruct (best_of (rs0 ++ [results])) as [b|] eqn:Hbest.
    + destruct (12 <=? scored_score b) eqn:Hhigh.
      * exists [results]. cbn [fst snd length take].
        rewrite Hrs, Hqs, take_0. repeat split; try done; lia.
      * by apply search_loop_continue.
    + by apply search_loop_continue.
Qed.

End SearchFacts.


(** ** The results on the sample inputs *)

(** The validator at the records of section 8: the first record fails
    the year check, the second passes both checks and is returned. *)
Lemma find_best_match_first_valid_witness :
  [dune_2021; dune_2024] = [dune_2021] ++ dune_2024 :: []
  /\ ~ @validated ascii_data (lit "Dune") (Some (lit "2024")) (lit "title")
         (lit "release_date") dune_2021
  /\ @validated ascii_data (lit "Dune") (Some (lit "2024")) (lit "title")
       (lit "release_date") dune_2024
  /\ @_find_best_match ascii_data [dune_2021; dune_2024] (lit "Dune")
       (Some (lit "2024")) (lit "title") (lit "release_date")
     = Some dune_2024.
Proof.
  assert (~ @validated ascii_data (lit "Dune") (Some (lit "2024"))
              (lit "title") (lit "release_date") dune_2021) as Hno.
  { intros [Hyear _]. destruct Hyear as (date & Hd & _ & Heq); [reflexivity|].
    vm_compute in Hd. injection Hd as <-. vm_compute in Heq.
    discriminate Heq. }
  assert (@validated ascii_data (lit "Dune") (Some (lit "2024"))
            (lit "title") (lit "release_date") dune_2024) as Hyes.
  { split.
    - intros _. exists (lit "2024-02-01").
      split; [by vm_compute|]. split; [vm_compute; lia|by vm_compute].
    - unfold title_matches. apply (bool_decide_unpack _). by vm_compute. }
  split; [reflexivity|]. split; [exact Hno|]. split; [exact Hyes|].
  pose proof (find_best_match_first_valid ascii_data [dune_2021; dune_2024]
                (lit "Dune") (Some (lit "2024")) (lit "title")
                (lit "release_date")) as H.
  cbv zeta in H. destruct H as (_ & H & _).
  apply (H [dune_2021] dune_2024 []); [reflexivity| |exact Hyes].
  apply Forall_cons. split; [exact Hno|apply Forall_nil; exact I].
Defined.

(** The selection at two trailers of equal score behind an interview:
    the first of the two is returned. *)
Lemma pick_best_first_maximal_witness :
  exists i,
    [interview_c; trailer_a; trailer_b] !! i = Some trailer_a
    /\ (forall c, c ∈ [interview_c; trailer_a; trailer_b] ->
          @_score_candidate ascii_data c movie_x (lit "2020") false false 0
          <= 18)
    /\ (forall j c, (j < i)%nat ->
          [interview_c; trailer_a; trailer_b] !! j = Some c ->
          @_score_candidate ascii_data c movie_x (lit "2020") false false 0
          < 18).
Proof.
  pose proof (pick_best_first_maximal ascii_data movie_x (lit "2020")
                false false 0 [interview_c; trailer_a; trailer_b]) as H.
  cbv zeta in H. rewrite pick_best_sample in H.
  destruct H as (i & Hi & _ & _ & Hmax & Hfirst).
  exists i. split; [exact Hi|]. split; [exact Hmax|exact Hfirst].
Defined.



(** * Further properties of the code *)

(** ** The script of a text *)

Lemma latin_loop_app (a b : str) :
  latin_loop (a ++ b) = latin_loop a && latin_loop b.
Proof.
  induction a as [|c a IH]; [done|].
  rewrite <- app_comm_cons. cbn [latin_loop].
  by destruct (blocked_script c).
Qed.

Lemma latin_loop_spec (text : str) :
  latin_loop text = true
  <-> Forall (fun c => blocked_script c = false) text.
Proof.
  induction text as [|c text IH]; [done|].
  cbn [latin_loop]. rewrite Forall_cons.
  destruct (blocked_script c); [|tauto].
  split; [done|]. by intros [? _].
Qed.

Lemma blocked_script_low (c : char) :
  (c < 0x400)%N -> blocked_script c = false.
Proof.
  intros Hc. unfold blocked_script.
  repeat match goal with
  | |- context [N.leb ?a ?b] => destruct (N.leb_spec a b)
  end; cbn; try done; lia.
Qed.

(** X1.  [_is_latin_text] refuses the empty text; a concatenation of
    two non-empty texts is Latin exactly when both are; one character of
    a refused block anywhere makes the text non-Latin; and a non-empty
    text of code points below U+0400 (ASCII, the Latin supplements and
    extensions, Greek) is always Latin. *)
Theorem is_latin_text_parts (a b : str) :
  _is_latin_text [] = false
  /\ (a <> [] -> b <> [] ->
      _is_latin_text (a ++ b) = _is_latin_text a && _is_latin_text b)
  /\ (forall c, c ∈ a -> blocked_script c = true -> _is_latin_text a = false)
  /\ (a <> [] -> Forall (fun c => (c < 0x400)%N) a ->
      _is_latin_text a = true).
Proof.
  split; [done|]. split; [|split].
  - intros Ha Hb. unfold _is_latin_text.
    destruct a as [|x a]; [done|]. destruct b as [|y b]; [done|].
    cbn [truthy negb app]. apply (latin_loop_app (x :: a) (y :: b)).
  - intros c Hc Hblocked. unfold _is_latin_text.
    destruct a as [|x a]; [done|]. cbn [truthy negb].
    apply not_true_iff_false. intros Hl%latin_loop_spec.
    rewrite Forall_forall in Hl. specialize (Hl c Hc). congruence.
  - intros Ha Hlow. unfold _is_latin_text.
    destruct a as [|x a]; [done|]. cbn [truthy negb].
    apply latin_loop_spec. eapply Forall_impl; [exact Hlow|].
    intros c Hc. by apply blocked_script_low.
Qed.

(** The check at a Romanian title followed by a Cyrillic one. *)
Lemma is_latin_text_parts_witness :
  lit "Moscova " <> [] /\ [1052; 1086; 1089]%N <> ([] : str)
  /\ _is_latin_text (lit "Moscova " ++ [1052; 1086; 1089]%N)
     = _is_latin_text (lit "Moscova ") && _is_latin_text [1052; 1086; 1089]%N.
Proof.
  assert (lit "Moscova " <> []) as Ha by done.
  assert ([1052; 1086; 1089]%N <> ([] : str)) as Hb by done.
  split; [exact Ha|]. split; [exact Hb|].
  exact (proj1 (proj2 (is_latin_text_parts (lit "Moscova ")
                         [1052; 1086; 1089]%N)) Ha Hb).
Defined.

(** ** File names *)

Section ParserFacts.
Variable isspace : char -> bool.

(** A word: a non-empty run of characters that are not white space. *)
Local Abbreviation word :=
  (fun w : str => w <> [] /\ Forall (fun c => isspace c = false) w).

Lemma flush_Forall (P : str -> Prop) (cur : str) (out : list str) :
  (cur <> [] -> P (reverse cur)) -> Forall P out -> Forall P (flush cur out).
Proof.
  intros Hcur Hout. destruct cur as [|c cur]; [done|].
  cbn [flush]. apply Forall_cons. split; [by apply Hcur|done].
Qed.

Lemma split_from_words (cur s : str) :
  Forall (fun c => isspace c = false) cur ->
  Forall word (split_from isspace cur s).
Proof.
  revert cur. induction s as [|c s IH]; intros cur Hcur; cbn [split_from].
  - apply flush_Forall; [|done]. intros Hne. split.
    + intros Hr. apply Hne. by rewrite <- (reverse_involutive cur), Hr.
    + by apply Forall_reverse.
  - destruct (isspace c) eqn:Hc.
    + apply flush_Forall; [|by apply IH]. intros Hne. split.
      * intros Hr. apply Hne. by rewrite <- (reverse_involutive cur), Hr.
      * by apply Forall_reverse.
    + apply IH. by apply Forall_cons.
Qed.

(** Splitting keeps the characters of the text. *)
Lemma split_from_chars (P : char -> Prop) (cur s : str) :
  Forall P cur -> Forall P s ->
  Forall (Forall P) (split_from isspace cur s).
Proof.
  revert cur. induction s as [|c s IH]; intros cur Hcur Hs; cbn [split_from].
  - apply flush_Forall; [|done]. intros _. by apply Forall_reverse.
  - apply Forall_cons in Hs as [Hc Hs]. destruct (isspace c).
    + apply flush_Forall; [|by apply IH]. intros _. by apply Forall_reverse.
    + apply IH; [by apply Forall_cons|done].
Qed.

Lemma spaced_cons (w : str) (ws : list str) :
  ws <> [] -> spaced (w :: ws) = w ++ lit " " ++ spaced ws.
Proof. by destruct ws. Qed.

Lemma spaced_chars (P : char -> Prop) (ws : list str) :
  P 32%N -> Forall (Forall P) ws -> Forall P (spaced ws).
Proof.
  intros Hsp. induction 1 as [|w ws Hw Hws IH]; [done|].
  destruct ws as [|w' ws]; [done|].
  rewrite spaced_cons by done. apply Forall_app. split; [done|].
  apply Forall_cons. split; [done|]. exact IH.
Qed.

Lemma lstrip_chars (P : char -> Prop) (s : str) :
  Forall P s -> Forall P (lstrip isspace s).
Proof.
  induction 1 as [|c s Hc Hs IH]; [done|].
  cbn [lstrip]. destruct (isspace c); [done|]. by apply Forall_cons.
Qed.

Lemma strip_chars (P : char -> Prop) (s : str) :
  Forall P s -> Forall P (strip isspace s).
Proof.
  intros Hs. unfold strip, rstrip.
  by apply Forall_reverse, lstrip_chars, Forall_reverse, lstrip_chars.
Qed.

Lemma lstrip_word_start (s : str) :
  match s with c :: _ => isspace c = false | [] => True end ->
  lstrip isspace s = s.
Proof. destruct s as [|c s]; [done|]. cbn [lstrip]. by intros ->. Qed.

Lemma spaced_words_nonempty (w : str) (ws : list str) :
  w <> [] -> spaced (w :: ws) <> [].
Proof.
  intros Hw. destruct ws as [|w' ws]; [done|].
  rewrite spaced_cons by done. by destruct w.
Qed.

Lemma spaced_head (ws : list str) :
  Forall word ws ->
  match spaced ws with c :: _ => isspace c = false | [] => True end.
Proof.
  intros Hws. destruct Hws as [|w ws [Hne Hw] Hws]; [done|].
  assert (match w with c :: _ => isspace c = false | [] => True end) as Hh.
  { destruct Hw; done. }
  destruct ws as [|w' ws]; [done|].
  rewrite spaced_cons by done. by destruct w.
Qed.

Lemma spaced_last (ws : list str) :
  Forall word ws ->
  match reverse (spaced ws) with
  | c :: _ => isspace c = false
  | [] => True
  end.
Proof.
  induction 1 as [|w ws [Hne Hw] Hws IH]; [done|].
  destruct ws as [|w' ws].
  - cbn [spaced]. apply Forall_reverse in Hw.
    destruct (reverse w); [done|]. by apply Forall_cons in Hw as [? _].
  - rewrite spaced_cons by done. rewrite !reverse_app.
    assert (spaced (w' :: ws) <> []) as Hn.
    { apply spaced_words_nonempty. by apply Forall_cons in Hws as [[? _] _]. }
    destruct (reverse (spaced (w' :: ws))) as [|c r] eqn:Hr; [|exact IH].
    exfalso. apply Hn. by rewrite <- (reverse_involutive (spaced _)), Hr.
Qed.

Lemma strip_spaced (ws : list str) :
  Forall word ws -> strip isspace (spaced ws) = spaced ws.
Proof.
  intros Hws. unfold strip, rstrip.
  rewrite (lstrip_word_start (spaced ws)) by by apply spaced_head.
  rewrite lstrip_word_start by by apply spaced_last.
  apply reverse_involutive.
Qed.

Lemma split_from_word (w cur rest : str) :
  Forall (fun c => isspace c = false) w ->
  split_from isspace cur (w ++ rest)
  = split_from isspace (reverse w ++ cur) rest.
Proof.
  revert cur. induction w as [|c w IH]; intros cur Hw; [done|].
  apply Forall_cons in Hw as [Hc Hw].
  rewrite <- app_comm_cons. cbn [split_from]. rewrite Hc, IH by done.
  by rewrite reverse_cons, <- app_assoc.
Qed.

Lemma split_spaced (ws : list str) :
  isspace 32%N = true -> Forall word ws ->
  split_whitespace isspace (spaced ws) = ws.
Proof.
  intros Hsp. unfold split_whitespace.
  induction 1 as [|w ws [Hne Hw] Hws IH]; [done|].
  destruct ws as [|w' ws].
  - cbn [spaced]. rewrite <- (app_nil_r w) at 1.
    rewrite split_from_word by done. rewrite app_nil_r. cbn [split_from].
    destruct (reverse w) as [|c r] eqn:Hr.
    + exfalso. apply Hne. by rewrite <- (reverse_involutive w), Hr.
    + cbn [flush]. by rewrite <- Hr, reverse_involutive.
  - rewrite spaced_cons by done. rewrite split_from_word by done.
    rewrite app_nil_r.
    change (lit " " ++ spaced (w' :: ws)) with (32%N :: spaced (w' :: ws)).
    cbn [split_from]. rewrite Hsp, IH.
    destruct (reverse w) as [|c r] eqn:Hr.
    + exfalso. apply Hne. by rewrite <- (reverse_involutive w), Hr.
    + cbn [flush]. by rewrite <- Hr, reverse_involutive.
Qed.

Lemma replace_colons_clean (s : str) :
  Forall (fun c => invalid_char c = false) s -> replace_colons s = s.
Proof.
  unfold replace_colons. induction 1 as [|c s Hc Hs IH]; [done|].
  cbn [flat_map]. rewrite IH.
  destruct (N.eqb_spec c colon) as [->|]; [done|done].
Qed.

Lemma filter_valid_clean (s : str) :
  Forall (fun c => invalid_char c = false) s ->
  filter (fun c => invalid_char c = false) s = s.
Proof.
  induction 1 as [|c s Hc Hs IH]; [done|].
  by rewrite filter_cons_True, IH.
Qed.

(** The words [sanitize_filename] keeps of a name. *)
Lemma sanitize_words (name : str) :
  let words :=
    split_whitespace isspace
      (filter (fun c => invalid_char c = false) (replace_colons name)) in
  sanitize_filename isspace name = spaced words
  /\ Forall word words
  /\ Forall (Forall (fun c => invalid_char c = false)) words.
Proof.
  intros words.
  assert (Forall word words) as Hw by by apply split_from_words.
  split; [|split; [exact Hw|]].
  - unfold sanitize_filename. fold words. by apply strip_spaced.
  - apply split_from_chars; [done|].
    apply Forall_forall. by intros c [? _]%list_elem_of_filter.
Qed.

End ParserFacts.

(** X2.  [sanitize_filename] returns a name without any of the
    characters that are invalid in file names; the name is a list of
    words (non-empty runs without white space) with one space between
    two of them, so it neither starts nor ends with white space; and
    sanitising is idempotent when the space is a white-space character. *)
Theorem sanitize_filename_clean (isspace : char -> bool) (name : str) :
  Forall (fun c => invalid_char c = false) (sanitize_filename isspace name)
  /\ (exists words,
        sanitize_filename isspace name = spaced words
        /\ Forall (fun w => w <> []
                            /\ Forall (fun c => isspace c = false) w) words)
  /\ (isspace 32%N = true ->
      sanitize_filename isspace (sanitize_filename isspace name)
      = sanitize_filename isspace name).
Proof.
  destruct (sanitize_words isspace name) as (Heq & Hw & Hvalid).
  cbv zeta in *.
  set (words := split_whitespace isspace
                  (filter (fun c => invalid_char c = false)
                     (replace_colons name))) in *.
  assert (Forall (fun c => invalid_char c = false)
            (sanitize_filename isspace name)) as Hclean.
  { rewrite Heq. by apply spaced_chars. }
  split; [exact Hclean|]. split; [by exists words|].
  intros Hsp. unfold sanitize_filename at 1.
  rewrite replace_colons_clean, filter_valid_clean by done.
  rewrite Heq, split_spaced by done. by apply strip_spaced.
Qed.

(** The theorem at ASCII white space and a title with a colon. *)
Lemma sanitize_filename_clean_witness :
  ascii_isspace 32%N = true
  /\ sanitize_filename ascii_isspace
       (sanitize_filename ascii_isspace (lit " Alien:  Covenant? "))
     = sanitize_filename ascii_isspace (lit " Alien:  Covenant? ").
Proof.
  split; [reflexivity|].
  exact (proj2 (proj2 (sanitize_filename_clean ascii_isspace
                         (lit " Alien:  Covenant? "))) eq_refl).
Defined.

Example sanitize_filename_sample :
  sanitize_filename ascii_isspace (lit "  Alien:  Covenant <cut>? a/b  ")
  = lit "Alien - Covenant cut ab".
Proof. vm_compute. reflexivity. Qed.

(** ** The scorer: what a high score takes, and the season check *)

Section ScorerMore.
Context {U : UnicodeData}.
Variables (c : Candidate) (title_words : gset str) (year : str).

Lemma hard_rejected_season (is_season : bool) (season_num : Z) :
  hard_rejected c title_words false 0 ->
  hard_rejected c title_words is_season season_num.
Proof.
  unfold hard_rejected. intros [?|[?|[?|(? & _)]]]; [tauto|tauto|tauto|done].
Qed.

Lemma hard_rejected_no_season (is_season : bool) (season_num : Z) :
  is_season = false \/ season_num <= 0 ->
  hard_rejected c title_words is_season season_num ->
  hard_rejected c title_words false 0.
Proof.
  unfold hard_rejected. intros Hoff [?|[?|[?|(Hs & Hn & _)]]];
    [tauto|tauto|tauto|].
  destruct Hoff as [Hoff|Hoff]; [congruence|lia].
Qed.

Lemma score_season_or_plain (is_show is_season : bool) (season_num : Z) :
  _score_candidate c title_words year is_show is_season season_num = -1
  \/ _score_candidate c title_words year is_show is_season season_num
     = _score_candidate c title_words year false false 0.
Proof.
  destruct (score_candidate_spec c title_words year is_show is_season
              season_num) as [[_ ->]|[Hn ->]]; [by left|right].
  destruct (score_candidate_spec c title_words year false false 0)
    as [[Hr _]|[_ ->]]; [|done].
  exfalso. apply Hn. by apply hard_rejected_season.
Qed.

Lemma score_passes (is_show is_season : bool) (season_num : Z) :
  _score_candidate c title_words year is_show is_season season_num <> -1 ->
  ~ hard_rejected c title_words is_season season_num
  /\ _score_candidate c title_words year is_show is_season season_num
     = points c year.
Proof.
  intros Hs.
  by destruct (score_candidate_spec c title_words year is_show is_season
                 season_num) as [[_ ?]|?].
Qed.

End ScorerMore.

(** X3.  What a high-confidence score takes.  A candidate that scores
    12 or more, the score at which the search stops early, has the token
    trailer and every title word among the tokens of its title, and at
    least one endorsement: a verified channel, the token official or
    oficial, or the two tokens red and band.  The year, the duration and
    the short title together give 11 at most. *)
Theorem high_score_needs_endorsement (U : UnicodeData) (c : Candidate)
    (title_words : gset str) (year : str) (is_show is_season : bool)
    (season_num : Z)
    (Hhigh : 12 <= _score_candidate c title_words year is_show is_season
                     season_num) :
  let tokens := _extract_words (cand_title c) in
  lit "trailer" ∈ tokens
  /\ title_words ⊆ tokens
  /\ (cand_channel_is_verified c = Some true
      \/ lit "official" ∈ tokens \/ lit "oficial" ∈ tokens
      \/ (lit "red" ∈ tokens /\ lit "band" ∈ tokens)).
Proof.
  intros tokens.
  destruct (score_passes c title_words year is_show is_season season_num)
    as [Hpass Hscore]; [lia|].
  rewrite Hscore in Hhigh. clear Hscore.
  split; [|split].
  - destruct (decide (lit "trailer" ∈ tokens)) as [?|Hn]; [done|].
    exfalso. apply Hpass. by left.
  - destruct (decide (title_words ⊆ tokens)) as [?|Hn]; [done|].
    exfalso. apply Hpass. right. by left.
  - unfold points in Hhigh. fold tokens in Hhigh.
    destruct (decide (cand_channel_is_verified c = Some true)) as [?|Hv];
      [by left|].
    destruct (decide (lit "official" ∈ tokens \/ lit "oficial" ∈ tokens))
      as [?|Ho]; [tauto|].
    destruct (decide (lit "red" ∈ tokens /\ lit "band" ∈ tokens))
      as [?|Hr]; [tauto|].
    exfalso.
    rewrite (bool_decide_eq_false_2 _ Hv), (bool_decide_eq_false_2 _ Ho),
      (bool_decide_eq_false_2 _ Hr) in Hhigh.
    repeat case_bool_decide; lia.
Qed.

Lemma high_score_needs_endorsement_witness :
  12 <= @_score_candidate ascii_data trailer_a movie_x (lit "2020")
          false false 0
  /\ lit "trailer" ∈ @_extract_words ascii_data (cand_title trailer_a)
  /\ movie_x ⊆ @_extract_words ascii_data (cand_title trailer_a)
  /\ (cand_channel_is_verified trailer_a = Some true
      \/ lit "official" ∈ @_extract_words ascii_data (cand_title trailer_a)
      \/ lit "oficial" ∈ @_extract_words ascii_data (cand_title trailer_a)
      \/ (lit "red" ∈ @_extract_words ascii_data (cand_title trailer_a)
          /\ lit "band" ∈ @_extract_words ascii_data (cand_title trailer_a))).
Proof.
  assert (12 <= @_score_candidate ascii_data trailer_a movie_x (lit "2020")
                  false false 0) as Hhigh by (vm_compute; discriminate).
  split; [exact Hhigh|].
  exact (high_score_needs_endorsement ascii_data trailer_a movie_x
           (lit "2020") false false 0 Hhigh).
Defined.

(** X4.  The season check and the range of the score.  The score
    does not depend on [is_show].  Outside season context, or with a
    season number that is not positive, it is the score of the plain
    search; in season context it is that score or the rejection [-1], and
    a candidate that is not rejected names the season in its normalised
    title by one of the eight phrases.  A score is [-1] or lies between 2
    and 23. *)
Theorem season_gate_and_range (U : UnicodeData) (c : Candidate)
    (title_words : gset str) (year : str) (is_show is_season : bool)
    (season_num : Z) :
  let plain := _score_candidate c title_words year false false 0 in
  let score :=
    _score_candidate c title_words year is_show is_season season_num in
  score = _score_candidate c title_words year (negb is_show) is_season
            season_num
  /\ (is_season = false \/ season_num <= 0 -> score = plain)
  /\ (score = -1 \/ score = plain)
  /\ (score <> -1 -> is_season = true -> 0 < season_num ->
      exists p, p ∈ season_pats season_num
                /\ contains p (_normalize (cand_title c)) = true)
  /\ (score = -1 \/ 2 <= score <= 23).
Proof.
  intros plain score. subst plain score.
  split; [|split; [|split; [|split]]].
  - destruct (score_candidate_spec c title_words year is_show is_season
                season_num) as [[Hr ->]|[Hn ->]];
      destruct (score_candidate_spec c title_words year (negb is_show)
                  is_season season_num) as [[Hr' ->]|[Hn' ->]]; done.
  - intros Hoff.
    destruct (score_candidate_spec c title_words year is_show is_season
                season_num) as [[Hr ->]|[Hn ->]];
      destruct (score_candidate_spec c title_words year false false 0)
        as [[Hr' ->]|[Hn' ->]]; try done.
    + exfalso. apply Hn'. by eapply hard_rejected_no_season.
    + exfalso. apply Hn. by apply hard_rejected_season.
  - apply score_season_or_plain.
  - intros Hs His Hpos.
    destruct (score_passes c title_words year is_show is_season season_num Hs)
      as [Hpass _].
    apply existsb_contains.
    destruct (existsb (fun p => contains p (_normalize (cand_title c)))
                (season_pats season_num)) eqn:E; [done|].
    exfalso. apply Hpass. right. right. right.
    split; [done|]. split; [done|]. by apply existsb_contains_false.
  - destruct (score_candidate_spec c title_words year is_show is_season
                season_num) as [[_ ->]|[_ ->]]; [by left|right].
    apply points_bounds.
Qed.

(** ** The selection over a growing list *)

Section PickMore.
Context {U : UnicodeData}.
Variables (title_words : gset str) (year : str)
          (is_show is_season : bool) (season_num : Z).

Local Abbreviation step :=
  (pick_step title_words year is_show is_season season_num).

Lemma pick_state (l : list Candidate) :
  exists best,
    fold_left step l (None, MIN_SCORE - 1) = (best, held_score best)
    /\ MIN_SCORE - 1 <= held_score best.
Proof.
  induction l as [|c l IH] using rev_ind.
  - exists None. done.
  - destruct IH as (best & Heq & Hle).
    rewrite fold_left_app, Heq. cbn [fold_left]. unfold pick_step at 1.
    cbn [snd].
    destruct (Z.ltb_spec (held_score best)
                (_score_candidate c title_words year is_show is_season
                   season_num)) as [Hlt|Hge].
    + exists (Some {| scored_candidate := c;
                      scored_score :=
                        _score_candidate c title_words year is_show
                          is_season season_num |}).
      split; [reflexivity|]. cbn. lia.
    + by exists best.
Qed.

Lemma pick_from (l : list Candidate) (best : option Scored) (held : Z) :
  MIN_SCORE - 1 <= held ->
  fold_left step l (best, held)
  = let found := _pick_best l title_words year is_show is_season season_num in
    if held <? held_score found then (found, held_score found)
    else (best, held).
Proof.
  intros Hheld. unfold _pick_best.
  induction l as [|c l IH] using rev_ind.
  - cbn. by rewrite (proj2 (Z.ltb_ge held (MIN_SCORE - 1)) Hheld).
  - rewrite !fold_left_app, IH. clear IH.
    destruct (pick_state l) as (found & -> & Hle).
    cbn [fold_left fst]. cbv zeta. unfold pick_step. cbn [snd fst].
    set (s := _score_candidate c title_words year is_show is_season
                season_num).
    destruct (Z.ltb_spec held (held_score found)) as [H1|H1]; cbn [snd fst];
      destruct (Z.ltb_spec (held_score found) s) as [H2|H2];
      cbn [snd fst held_score scored_score].
    all: repeat match goal with
           | |- context [?a <? ?b] => destruct (Z.ltb_spec a b)
           end; try reflexivity; lia.
Qed.

Lemma pick_best_app_eq (l1 l2 : list Candidate) :
  _pick_best (l1 ++ l2) title_words year is_show is_season season_num
  = let first := _pick_best l1 title_words year is_show is_season season_num in
    let second :=
      _pick_best l2 title_words year is_show is_season season_num in
    if held_score first <? held_score second then second else first.
Proof.
  cbv zeta.
  destruct (pick_state l1) as (first & Heq & Hle).
  assert (_pick_best l1 title_words year is_show is_season season_num
          = first) as ->.
  { unfold _pick_best. by rewrite Heq. }
  unfold _pick_best at 1. rewrite fold_left_app, Heq.
  rewrite (pick_from l2 first (held_score first) Hle). cbv zeta.
  by destruct (held_score first <? _).
Qed.

End PickMore.

(** X5.  The selection over a list that grows.  The pick over
    [l1 ++ l2] is the pick over [l2] when that one scores strictly more
    than the pick over [l1] (or when there is none over [l1]), and the pick
    over [l1] otherwise: results that arrive later replace the pick only by
    a strictly higher score, and the score of the pick never goes down. *)
Theorem pick_best_app (U : UnicodeData) (title_words : gset str)
    (year : str) (is_show is_season : bool) (season_num : Z)
    (l1 l2 : list Candidate) :
  let pick l := _pick_best l title_words year is_show is_season season_num in
  pick (l1 ++ l2)
  = (if held_score (pick l1) <? held_score (pick l2)
     then pick l2 else pick l1)
  /\ held_score (pick l1) <= held_score (pick (l1 ++ l2))
  /\ (forall b, pick l1 = Some b ->
      (forall c, c ∈ l2 ->
         _score_candidate c title_words year is_show is_season season_num
         <= scored_score b) ->
      pick (l1 ++ l2) = Some b).
Proof.
  intros pick. subst pick. cbv beta.
  rewrite pick_best_app_eq. cbv zeta.
  split; [done|]. split.
  - destruct (Z.ltb_spec
                (held_score (_pick_best l1 title_words year is_show
                               is_season season_num))
                (held_score (_pick_best l2 title_words year is_show
                               is_season season_num))); lia.
  - intros b Hb Hall. rewrite Hb. cbn [held_score].
    pose proof (pick_best_spec title_words year is_show is_season season_num
                  l2) as Hspec.
    destruct (_pick_best l2 title_words year is_show is_season season_num)
      as [b2|] eqn:E2.
    + destruct Hspec as (i & Hi & Hs & _).
      apply list_elem_of_lookup_2 in Hi. specialize (Hall _ Hi).
      unfold score_of in Hs. cbn [held_score].
      destruct (Z.ltb_spec (scored_score b) (scored_score b2)); [lia|done].
    + cbn [held_score].
      pose proof (pick_best_spec title_words year is_show is_season
                    season_num l1) as Hspec1.
      rewrite Hb in Hspec1. destruct Hspec1 as (i & _ & _ & Hmin & _).
      destruct (Z.ltb_spec (scored_score b) (MIN_SCORE - 1)); [|done].
      unfold MIN_SCORE in *. lia.
Qed.

(** ** The merge of the results *)

Lemma merge_all_concat (rs : list (list Candidate)) :
  merge_all rs = fold_left merge_step (concat rs) (∅, []).
Proof.
  unfold merge_all. generalize ((∅, []) : gset str * list Candidate).
  induction rs as [|r rs IH]; intros st; [done|].
  cbn [concat fold_left]. by rewrite fold_left_app, IH.
Qed.

Lemma merge_invariant (l : list Candidate) :
  let st := fold_left merge_step l (∅, []) in
  NoDup (map cand_id st.2)
  /\ st.1 = list_to_set (map cand_id st.2)
  /\ Forall (fun c => cand_id c <> []) st.2
  /\ sublist st.2 l
  /\ (forall r, r ∈ l -> cand_id r <> [] -> cand_id r ∈ st.1).
Proof.
  cbv zeta. induction l as [|r l IH] using rev_ind.
  - cbn. split; [constructor|]. split; [done|]. split; [done|].
    split; [done|]. intros r Hr. by apply elem_of_nil in Hr.
  - rewrite fold_left_app. cbn [fold_left].
    destruct (fold_left merge_step l (∅, [])) as [seen acc].
    cbn [fst snd] in IH. destruct IH as (Hnd & Hseen & Hne & Hsub & Hall).
    unfold merge_step. cbn [fst snd].
    destruct (cand_id r) as [|a vid] eqn:Hid; cbn [truthy andb].
    { cbn [fst snd]. repeat split; try done.
      - by apply sublist_inserts_r.
      - intros r' Hr' Hne'. apply elem_of_app in Hr' as [Hr'|Hr'];
          [by apply Hall|].
        apply list_elem_of_singleton in Hr'. subst r'. congruence. }
    case_bool_decide as Hin; cbn [negb fst snd].
    + repeat split; try done.
      * by apply sublist_inserts_r.
      * intros r' Hr' Hne'. apply elem_of_app in Hr' as [Hr'|Hr'];
          [by apply Hall|].
        apply list_elem_of_singleton in Hr'. subst r'. by rewrite Hid.
    + repeat split.
      * rewrite map_app. cbn [map]. rewrite Hid.
        apply NoDup_app. split; [done|]. split; [|apply NoDup_singleton].
        intros x Hx Hx'. apply list_elem_of_singleton in Hx'. subst x.
        apply Hin. rewrite Hseen. by apply elem_of_list_to_set.
      * rewrite map_app, list_to_set_app_L. cbn [map]. rewrite Hid, Hseen.
        cbn. set_solver.
      * apply Forall_app. split; [done|]. apply Forall_singleton.
        by rewrite Hid.
      * by apply sublist_app.
      * intros r' Hr' Hne'. apply elem_of_app in Hr' as [Hr'|Hr'].
        -- apply elem_of_union_r. by apply Hall.
        -- apply list_elem_of_singleton in Hr'. subst r'. rewrite Hid.
           apply elem_of_union_l. by apply elem_of_singleton.
Qed.

(** X6.  What the merge of the results keeps.  After the answers of
    any number of queries are merged, the candidates accumulated carry
    pairwise distinct, non-empty identifiers; they are records of the
    answers, in the order they arrived; the set of seen identifiers is
    exactly the set of their identifiers; and every non-empty identifier
    of an answer is among them.  A record without identifier, and a record
    whose identifier was seen before, is dropped. *)
Theorem merge_keeps_first_of_each_id (rs : list (list Candidate)) :
  let seen_ids := (merge_all rs).1 in
  let all_candidates := (merge_all rs).2 in
  NoDup (map cand_id all_candidates)
  /\ seen_ids = list_to_set (map cand_id all_candidates)
  /\ Forall (fun c => cand_id c <> []) all_candidates
  /\ sublist all_candidates (concat rs)
  /\ (forall r, r ∈ concat rs -> cand_id r <> [] -> cand_id r ∈ seen_ids)
  /\ all_candidates = accumulate rs.
Proof.
  cbv zeta. rewrite merge_all_concat.
  pose proof (merge_invariant (concat rs)) as (H1 & H2 & H3 & H4 & H5).
  repeat split; try done.
  rewrite merge_fold. cbn [snd app]. by rewrite filter_not_in_empty.
Qed.

(** ** The search: where the result comes from, and the trace *)

Lemma accumulate_merge (rs : list (list Candidate)) :
  accumulate rs = (fold_left merge_step (concat rs) (∅, [])).2.
Proof.
  rewrite merge_fold. cbn [snd app]. by rewrite filter_not_in_empty.
Qed.

Lemma accumulate_from_answers (rs : list (list Candidate)) (c : Candidate) :
  c ∈ accumulate rs -> c ∈ concat rs /\ cand_id c <> [].
Proof.
  rewrite accumulate_merge.
  pose proof (merge_invariant (concat rs)) as (_ & _ & Hne & Hsub & _).
  intros Hc. split.
  - by eapply elem_of_sublist.
  - rewrite Forall_forall in Hne. by apply Hne.
Qed.

Lemma accumulate_covers (rs : list (list Candidate)) (c : Candidate) :
  c ∈ concat rs -> cand_id c <> [] ->
  exists c', c' ∈ accumulate rs /\ cand_id c' = cand_id c.
Proof.
  rewrite accumulate_merge.
  pose proof (merge_invariant (concat rs)) as (_ & Hseen & _ & _ & Hall).
  intros Hc Hne. specialize (Hall c Hc Hne). rewrite Hseen in Hall.
  apply elem_of_list_to_set, list_elem_of_fmap in Hall
    as (c' & Hid & Hc').
  by exists c'.
Qed.

(** Of the records with a given identifier, the accumulator holds the
    one that arrived first. *)
Lemma keep_first_first (l : list Candidate) (c : Candidate) :
  c ∈ l -> cand_id c <> [] ->
  exists pre c' post,
    l = pre ++ c' :: post
    /\ Forall (fun x => cand_id x <> cand_id c) pre
    /\ cand_id c' = cand_id c
    /\ c' ∈ keep_first l.
Proof.
  intros Hc Hne. induction l as [|r l IH]; [by apply elem_of_nil in Hc|].
  cbn [keep_first].
  destruct (decide (cand_id r = cand_id c)) as [Heq|Hdiff].
  - exists [], r, l. split; [done|]. split; [done|]. split; [done|].
    destruct (cand_id r) eqn:Hr; [congruence|]. cbn [truthy].
    apply elem_of_cons. by left.
  - apply elem_of_cons in Hc as [->|Hc]; [done|].
    destruct (IH Hc) as (pre & c' & post & -> & Hpre & Hid & Hin).
    exists (r :: pre), c', post. split; [done|].
    split; [by constructor|]. split; [done|].
    destruct (truthy (cand_id r)); [|done].
    apply elem_of_cons. right. apply list_elem_of_filter.
    split; [congruence|done].
Qed.

Lemma answered_responses (events : list SearchEvent) (c : Candidate) :
  c ∈ concat (responses events) <-> answered events c.
Proof.
  unfold answered, responses. rewrite list_elem_of_In, in_concat. split.
  - intros (results & Hr & Hc).
    apply in_flat_map in Hr as (e & He & Hr).
    destruct e as [s|q r]; [done|]. destruct Hr as [<-|[]].
    exists q, r. split; by apply list_elem_of_In.
  - intros (q & r & He & Hc). exists r. split; [|by apply list_elem_of_In].
    apply in_flat_map. exists (Search q r).
    split; [by apply list_elem_of_In|by left].
Qed.

Section SearchMore.
Context {U : UnicodeData}.
Variable _yt_search_json : list SearchEvent -> str -> list Candidate.
Variables (title_words : gset str) (year : str)
          (is_show is_season : bool) (season_num : Z).

(** The result of the search is the pick over the accumulated answers
    of its trace; with no result every query was issued. *)
Lemma validated_search_pick (queries : list str) :
  let run :=
    validated_search _yt_search_json title_words year is_show is_season
      season_num queries in
  run.1 = youtube_url
            <$> _pick_best (accumulate (responses run.2)) title_words year
                  is_show is_season season_num
  /\ (run.1 = None -> issued_queries run.2 = queries).
Proof.
  intros run.
  pose proof (search_loop_spec _yt_search_json title_words year is_show
                is_season season_num queries 0 []) as Hloop.
  cbv zeta in Hloop.
  change (responses []) with (@nil (list Candidate)) in Hloop.
  change (known_ids (concat [])) with (∅ : gset str) in Hloop.
  change (accumulate []) with (@nil Candidate) in Hloop.
  change (issued_queries []) with (@nil str) in Hloop.
  destruct Hloop as (new & Hr & Hq & Hlen & Hacc & Hlow & Hend).
  rewrite !app_nil_l in *.
  subst run. unfold validated_search.
  destruct (search_loop _yt_search_json title_words year is_show
              is_season season_num 0 queries ∅ [] [])
    as [[early all_candidates] events].
  cbn [fst snd] in *. destruct early as [b|].
  - destruct Hend as [Hb _]. cbn [fst snd]. rewrite Hr, Hb. done.
  - destruct Hend as [Hn _]. subst all_candidates. rewrite <- Hr.
    destruct (_pick_best (accumulate (responses events)) title_words year
                is_show is_season season_num) eqn:E; cbn [fst snd];
      rewrite ?E; [done|].
    split; [done|]. intros _. rewrite Hq, Hn. apply firstn_all.
Qed.

Lemma split_snoc {A} (l pre post : list A) (x y : A) :
  l ++ [x] = pre ++ y :: post ->
  (post = [] /\ l = pre /\ x = y)
  \/ (exists post', post = post' ++ [x] /\ l = pre ++ y :: post').
Proof.
  intros Heq. destruct post as [|p post _] using rev_ind.
  - left. apply app_inj_tail in Heq as [-> ->]. done.
  - right. exists post.
    rewrite app_comm_cons, app_assoc in Heq.
    apply app_inj_tail in Heq as [-> ->]. done.
Qed.

Lemma faithful_sleep (events : list SearchEvent) (s : Z) :
  faithful_trace _yt_search_json events ->
  faithful_trace _yt_search_json (events ++ [Sleep s]).
Proof.
  intros H pre q r post Heq.
  apply split_snoc in Heq as [(_ & _ & ?)|(post' & _ & Heq)]; [done|].
  by eapply H.
Qed.

Lemma faithful_search (events : list SearchEvent) (query : str) :
  faithful_trace _yt_search_json events ->
  faithful_trace _yt_search_json
    (events ++ [Search query (_yt_search_json events query)]).
Proof.
  intros H pre q r post Heq.
  apply split_snoc in Heq as [(_ & -> & Heq)|(post' & _ & Heq)].
  - by injection Heq as -> ->.
  - by eapply H.
Qed.

Lemma search_loop_trace (queries : list str) (qi : nat)
    (seen_ids : gset str) (all_candidates : list Candidate)
    (events : list SearchEvent) :
  let run :=
    search_loop _yt_search_json title_words year is_show is_season
      season_num qi queries seen_ids all_candidates events in
  (faithful_trace _yt_search_json events ->
   faithful_trace _yt_search_json run.2)
  /\ exists new,
       run.2
       = events
         ++ (if (0 <? qi)%nat
             then flat_map
                    (fun '(query, results) => [Sleep 2; Search query results])
                    new
             else paced new).
Proof.
  revert qi seen_ids all_candidates events.
  induction queries as [|query rest IH];
    intros qi seen_ids all_candidates events run.
  - subst run. cbn [search_loop snd]. split; [done|]. exists [].
    destruct (0 <? qi)%nat; cbn; by rewrite app_nil_r.
  - subst run. cbn [search_loop].
    set (events1 := if (0 <? qi)%nat then events ++ [Sleep 2] else events).
    set (results := _yt_search_json events1 query).
    set (events2 := events1 ++ [Search query results]).
    assert (faithful_trace _yt_search_json events ->
            faithful_trace _yt_search_json events2) as Hf.
    { intros H. subst events2 results. apply faithful_search.
      subst events1. destruct (0 <? qi)%nat; [by apply faithful_sleep|done]. }
    assert (events2
            = events
              ++ (if (0 <? qi)%nat
                  then flat_map
                         (fun '(query, results) =>
                            [Sleep 2; Search query results])
                         [(query, results)]
                  else paced [(query, results)])) as Hshape.
    { subst events2 events1. destruct (0 <? qi)%nat; cbn.
      - by rewrite <- app_assoc.
      - done. }
    destruct (fold_left merge_step results (seen_ids, all_candidates))
      as [seen_ids' all_candidates'].
    specialize (IH (S qi) seen_ids' all_candidates' events2).
    cbv zeta in IH. destruct IH as [IHf (new & IHs)].
    change (0 <? S qi)%nat with true in IHs. cbv iota in IHs.
    assert (exists new',
              (search_loop _yt_search_json title_words year is_show
                 is_season season_num (S qi) rest seen_ids' all_candidates'
                 events2).2
              = events
                ++ (if (0 <? qi)%nat
                    then flat_map
                           (fun '(query, results) =>
                              [Sleep 2; Search query results]) new'
                    else paced new')) as Hcont.
    { exists ((query, results) :: new). rewrite IHs.
      subst events2 events1. destruct (0 <? qi)%nat; cbn.
      - by rewrite <- !app_assoc.
      - by rewrite <- !app_assoc. }
    destruct (_pick_best all_candidates' title_words year is_show is_season
                season_num) as [b|].
    + destruct (12 <=? scored_score b).
      * cbn [snd]. split; [exact Hf|]. by exists [(query, results)].
      * split; [|exact Hcont]. intros H. by apply IHf, Hf.
    + split; [|exact Hcont]. intros H. by apply IHf, Hf.
Qed.

Lemma validated_search_events (queries : list str) :
  (validated_search _yt_search_json title_words year is_show is_season
     season_num queries).2
  = (search_loop _yt_search_json title_words year is_show is_season
       season_num 0 queries ∅ [] []).2.
Proof.
  unfold validated_search.
  destruct (search_loop _yt_search_json title_words year is_show
              is_season season_num 0 queries ∅ [] [])
    as [[[b|] all_candidates] events]; cbn [snd]; [done|].
  by destruct (_pick_best all_candidates title_words year is_show is_season
                 season_num).
Qed.

End SearchMore.

Lemma searches_of_paced (searches : list (str * list Candidate)) :
  searches_of (paced searches) = searches.
Proof.
  destruct searches as [|[q r] rest]; [done|].
  cbn. f_equal. induction rest as [|[q' r'] rest IH]; [done|].
  cbn. by rewrite IH.
Qed.

Lemma issued_queries_searches (events : list SearchEvent) :
  issued_queries events = map fst (searches_of events).
Proof.
  unfold issued_queries, searches_of.
  induction events as [|[s|q r] events IH]; cbn; [done|done|].
  by rewrite IH.
Qed.

Lemma build_queries_length (original_title en_title year : str)
    (is_show is_season : bool) (season_num : Z) :
  (1 <= length (_build_queries original_title en_title year is_show
                  is_season season_num) <= 5)%nat
  /\ (is_season = true ->
      (length (_build_queries original_title en_title year is_show
                 is_season season_num) <= 3)%nat).
Proof.
  unfold _build_queries.
  destruct is_season, (truthy year), (truthy _ && negb _);
    rewrite ?length_app; cbn [length app]; split; try lia; done.
Qed.

(** X7.  Where the result of the search comes from.  When the search
    returns a URL, the URL is the fixed watch prefix followed by the
    identifier of a record that the collaborator returned in this search;
    the identifier is not empty and the record scores at least
    [MIN_SCORE].  When the search returns nothing, every query was issued,
    and for every record returned with an identifier, the first record
    with that identifier, in the order the records arrived, scores below
    [MIN_SCORE] (a later record that reuses an identifier is never
    scored). *)
Theorem search_result_from_answers (U : UnicodeData)
    (_yt_search_json : list SearchEvent -> str -> list Candidate)
    (title_words : gset str) (year : str) (is_show is_season : bool)
    (season_num : Z) (queries : list str) :
  let run :=
    validated_search _yt_search_json title_words year is_show is_season
      season_num queries in
  let score c :=
    _score_candidate c title_words year is_show is_season season_num in
  let arrived := concat (responses run.2) in
  match run.1 with
  | Some url =>
      exists c,
        answered run.2 c
        /\ cand_id c <> []
        /\ url = lit "https://www.youtube.com/watch?v=" ++ cand_id c
        /\ MIN_SCORE <= score c
  | None =>
      issued_queries run.2 = queries
      /\ forall c, answered run.2 c -> cand_id c <> [] ->
           exists before first after,
             arrived = before ++ first :: after
             /\ Forall (fun x => cand_id x <> cand_id c) before
             /\ cand_id first = cand_id c
             /\ answered run.2 first
             /\ score first < MIN_SCORE
  end.
Proof.
  intros run score arrived.
  pose proof (validated_search_pick _yt_search_json title_words year is_show
                is_season season_num queries) as [Hpick Hall].
  fold run in Hpick, Hall.
  pose proof (pick_best_spec title_words year is_show is_season season_num
                (accumulate (responses run.2))) as Hspec.
  destruct (_pick_best (accumulate (responses run.2)) title_words year
              is_show is_season season_num) as [b|]; rewrite Hpick; cbn.
  - destruct Hspec as (i & Hi & Hs & Hmin & _).
    apply list_elem_of_lookup_2, accumulate_from_answers in Hi as [Hin Hne].
    exists (scored_candidate b). split; [by apply answered_responses|].
    split; [done|]. split; [done|]. subst score. cbv beta.
    unfold score_of in Hs. by rewrite <- Hs.
  - split; [by apply Hall|]. intros c Hc Hne.
    apply answered_responses in Hc.
    destruct (keep_first_first _ _ Hc Hne)
      as (before & first & after & Harr & Hbefore & Hid & Hin).
    exists before, first, after. split; [exact Harr|].
    split; [exact Hbefore|]. split; [exact Hid|].
    split; [|by apply Hspec].
    apply answered_responses. by apply accumulate_from_answers.
Qed.

(** X8.  The trace of a search.  The events of a search are its
    queries, each with the collaborator's answer for the events before it,
    with no pause before the first query and a pause of two seconds before
    each later one: the trace is determined by its searches.  A call of
    [_search_youtube_validated] issues at most five queries, at most three
    in season context. *)
Theorem search_trace_paced (U : UnicodeData)
    (_yt_search_json : list SearchEvent -> str -> list Candidate)
    (title_words : gset str) (year : str) (is_show is_season : bool)
    (season_num : Z) (queries : list str) :
  let run :=
    validated_search _yt_search_json title_words year is_show is_season
      season_num queries in
  run.2 = paced (searches_of run.2)
  /\ (forall pre query results post,
        run.2 = pre ++ Search query results :: post ->
        results = _yt_search_json pre query)
  /\ (forall original_title en_title,
        let events :=
          (_search_youtube_validated _yt_search_json original_title en_title
             year is_show is_season season_num).2 in
        (length (issued_queries events) <= 5)%nat
        /\ (is_season = true -> (length (issued_queries events) <= 3)%nat)).
Proof.
  intros run.
  assert (forall tw qs,
            let events :=
              (validated_search _yt_search_json tw year is_show is_season
                 season_num qs).2 in
            events = paced (searches_of events)
            /\ faithful_trace _yt_search_json events
            /\ (length (issued_queries events) <= length qs)%nat) as Hrun.
  { intros tw qs events. subst events. rewrite validated_search_events.
    pose proof (search_loop_trace _yt_search_json tw year is_show
                  is_season season_num qs 0 ∅ [] []) as [Hf (new & Hshape)].
    cbv zeta in Hf, Hshape. change (0 <? 0)%nat with false in Hshape.
    cbv iota in Hshape. rewrite app_nil_l in Hshape.
    split; [by rewrite Hshape, searches_of_paced|].
    split; [apply Hf; intros pre q r post Heq; by destruct pre|].
    pose proof (search_loop_spec _yt_search_json tw year is_show
                  is_season season_num qs 0 []) as Hloop.
    cbv zeta in Hloop.
    change (responses []) with (@nil (list Candidate)) in Hloop.
    change (known_ids (concat [])) with (∅ : gset str) in Hloop.
    change (accumulate []) with (@nil Candidate) in Hloop.
    change (issued_queries []) with (@nil str) in Hloop.
    destruct Hloop as (new' & _ & Hq & Hlen & _).
    rewrite app_nil_l in Hq. rewrite Hq, length_take. lia. }
  destruct (Hrun title_words queries) as (Hshape & Hf & _).
  split; [exact Hshape|]. split; [exact Hf|].
  intros original_title en_title events. subst events.
  unfold _search_youtube_validated.
  destruct (negb (truthy _)); [cbn; split; [lia|intros _; lia]|].
  destruct (bool_decide _); [cbn; split; [lia|intros _; lia]|].
  destruct (Hrun (_extract_words
                    (if truthy original_title then original_title
                     else en_title))
              (_build_queries original_title en_title year is_show is_season
                 season_num)) as (_ & _ & Hlen).
  pose proof (build_queries_length original_title en_title year is_show
                is_season season_num) as [Hfive Hthree].
  split; [lia|]. intros Hs. specialize (Hthree Hs). lia.
Qed.

(** ** The trailer of a folder: what a call touches, and giving up *)

Section HandleMore.
Context {U : UnicodeData}.
Variables trailer_exists download_movie download_show : str -> bool.
Variables (folder : str) (failures : Ledger) (is_show : bool).

Lemma handle_trailer_other_keys (tmdb_id key : str) :
  search_tmdb folder = Some tmdb_id -> key <> failure_key tmdb_id ->
  _handle_trailer trailer_exists download_movie download_show folder
    failures is_show !! key
  = failures !! key.
Proof.
  intros Hid Hkey. unfold _handle_trailer. rewrite Hid.
  destruct (trailer_exists folder); [done|].
  destruct (negb (_extract_year_from_folder folder =? 0)
            && (_extract_year_from_folder folder <? EXCLUSION_YEAR_CUTOFF));
    cbn [andb].
  - destruct (_is_trailer_excluded failures tmdb_id); [done|].
    destruct (if is_show then download_show folder
              else download_movie folder).
    + rewrite record_success_delete. by apply lookup_delete_ne.
    + by apply record_failure_other.
  - destruct (if is_show then download_show folder
              else download_movie folder); [|done].
    rewrite record_success_delete. by apply lookup_delete_ne.
Qed.

End HandleMore.

(** X9.  What a call of [_handle_trailer] touches.  When the trailer
    is already in the folder, or the folder name carries no tmdb tag, the
    failures mapping is returned as it is.  Otherwise only the entry of the
    folder's own identifier can change: every other key reads as before,
    and so does the exclusion of every other identifier. *)
Theorem handle_trailer_frame (U : UnicodeData)
    (trailer_exists download_movie download_show : str -> bool)
    (folder : str) (failures : Ledger) (is_show : bool) :
  let result :=
    _handle_trailer trailer_exists download_movie download_show
      folder failures is_show in
  (trailer_exists folder = true -> result = failures)
  /\ (search_tmdb folder = None -> result = failures)
  /\ (forall tmdb_id key,
        search_tmdb folder = Some tmdb_id -> key <> failure_key tmdb_id ->
        result !! key = failures !! key)
  /\ (forall tmdb_id other,
        search_tmdb folder = Some tmdb_id -> other <> tmdb_id ->
        _is_trailer_excluded result other
        = _is_trailer_excluded failures other).
Proof.
  intros result. subst result. split; [|split; [|split]].
  - intros Hex. unfold _handle_trailer. by rewrite Hex.
  - intros Hno. unfold _handle_trailer. rewrite Hno.
    by destruct (trailer_exists folder).
  - intros tmdb_id key. apply handle_trailer_other_keys.
  - intros tmdb_id other Hid Hother. unfold _is_trailer_excluded.
    rewrite (handle_trailer_other_keys trailer_exists download_movie
               download_show folder failures is_show tmdb_id
               (failure_key other) Hid); [done|].
    intros Heq. by apply failure_key_inj in Heq.
Qed.

(** X10.  Giving up on an old title.  For a folder whose year is
    before the cut-off and whose identifier has no entry, two calls of
    [_handle_trailer] that find no trailer in place and whose download
    fails leave the entry with count 2, the folder name and the excluded
    flag; every later call then returns the mapping as it is, whatever the
    folder holds and whatever the downloads would give: the download is no
    longer consulted. *)
Theorem handle_trailer_gives_up (U : UnicodeData)
    (present1 movie1 show1 present2 movie2 show2 present3 movie3 show3
       : str -> bool)
    (folder tmdb_id : str) (failures : Ledger) (is_show : bool)
    (Hid : search_tmdb folder = Some tmdb_id)
    (Hold : pre_cutoff (_extract_year_from_folder folder))
    (Hnew : failures !! failure_key tmdb_id = None)
    (Hmissing1 : present1 folder = false)
    (Hfailed1 : (if is_show then show1 folder else movie1 folder) = false)
    (Hmissing2 : present2 folder = false)
    (Hfailed2 : (if is_show then show2 folder else movie2 folder) = false) :
  let once := _handle_trailer present1 movie1 show1 folder failures is_show in
  let twice := _handle_trailer present2 movie2 show2 folder once is_show in
  once !! failure_key tmdb_id
  = Some {| entry_count := Some 1; entry_name := Some folder;
            entry_excluded := Some false |}
  /\ twice !! failure_key tmdb_id
     = Some {| entry_count := Some 2; entry_name := Some folder;
               entry_excluded := Some true |}
  /\ _handle_trailer present3 movie3 show3 folder twice is_show = twice.
Proof.
  intros once twice.
  apply pre_cutoff_test in Hold.
  assert (once = _record_trailer_failure failures tmdb_id folder) as Honce.
  { subst once. unfold _handle_trailer.
    rewrite Hmissing1, Hid, Hold, Hfailed1. cbn [andb].
    unfold _is_trailer_excluded. by rewrite Hnew. }
  assert (once !! failure_key tmdb_id
          = Some {| entry_count := Some 1; entry_name := Some folder;
                    entry_excluded := Some false |}) as Hentry1.
  { rewrite Honce, record_failure_lookup, Hnew. done. }
  assert (twice = _record_trailer_failure once tmdb_id folder) as Htwice.
  { subst twice. unfold _handle_trailer.
    rewrite Hmissing2, Hid, Hold, Hfailed2. cbn [andb].
    unfold _is_trailer_excluded. by rewrite Hentry1. }
  assert (twice !! failure_key tmdb_id
          = Some {| entry_count := Some 2; entry_name := Some folder;
                    entry_excluded := Some true |}) as Hentry2.
  { rewrite Htwice, record_failure_lookup, Hentry1. done. }
  split; [exact Hentry1|]. split; [exact Hentry2|].
  unfold _handle_trailer. rewrite Hid, Hold. cbn [andb].
  unfold _is_trailer_excluded. rewrite Hentry2. cbn.
  by destruct (present3 folder).
Qed.

Lemma handle_trailer_gives_up_witness :
  let never := fun _ : str => false in
  let always := fun _ : str => true in
  let once :=
    @_handle_trailer ascii_data never never never old_folder ∅ false in
  let twice :=
    @_handle_trailer ascii_data never never never old_folder once false in
  @search_tmdb ascii_data old_folder = Some (lit "19")
  /\ pre_cutoff (@_extract_year_from_folder ascii_data old_folder)
  /\ @_handle_trailer ascii_data never always always old_folder twice false
     = twice.
Proof.
  intros never always once twice.
  assert (@search_tmdb ascii_data old_folder = Some (lit "19")) as Hid
    by (vm_compute; reflexivity).
  assert (pre_cutoff (@_extract_year_from_folder ascii_data old_folder))
    as Hold.
  { apply pre_cutoff_test. vm_compute. reflexivity. }
  split; [exact Hid|]. split; [exact Hold|].
  exact (proj2 (proj2 (handle_trailer_gives_up ascii_data never never never
                         never never never never always always old_folder
                         (lit "19") ∅ false Hid Hold eq_refl eq_refl eq_refl
                         eq_refl eq_refl))).
Defined.

(** ** The tag and the year of a folder name *)

Lemma startswith_app (p t : str) : startswith p (p ++ t) = true.
Proof.
  induction p as [|a p IH]; [done|]. cbn. by rewrite N.eqb_refl.
Qed.

Lemma startswith_inv (p s : str) :
  startswith p s = true -> s = p ++ drop (length p) s.
Proof.
  revert s. induction p as [|a p IH]; intros s H; [done|].
  destruct s as [|b s]; [done|]. cbn in H.
  destruct (N.eqb_spec a b) as [->|]; [|done].
  cbn. f_equal. by apply IH.
Qed.

(** A tag begins with its bracket only: a text that does not begin
    with the opening of a tag does not begin with it either when an
    opening follows the text. *)
Lemma startswith_tag_straddle (x rest : str) :
  x <> [] ->
  startswith (lit "[tmdb-") x = false ->
  startswith (lit "[tmdb-") (x ++ lit "[tmdb-" ++ rest) = false.
Proof.
  change (lit "[tmdb-") with [91; 116; 109; 100; 98; 45]%N.
  intros Hne H.
  destruct x as [|a [|b [|c [|d [|e [|f x]]]]]]; [done|..];
    cbn [startswith app] in H |- *;
    repeat match goal with
           | |- context [N.eqb ?u ?v] =>
               destruct (N.eqb_spec u v); subst; try done
           end.
Qed.

Section TagFacts.
Context {U : UnicodeData}.

Local Abbreviation digits := (Forall (fun c : char => is_digit c = true)).

Lemma take_digits_split (s : str) :
  s = take_digits s ++ drop (length (take_digits s)) s
  /\ digits (take_digits s).
Proof.
  induction s as [|c s [IH1 IH2]]; [done|]. cbn [take_digits].
  destruct (is_digit c) eqn:Hc; [|done]. cbn [length drop app]. split.
  - by rewrite <- IH1.
  - by constructor.
Qed.

Lemma take_digits_app (g rest : str) :
  digits g -> match rest with [] => True | c :: _ => is_digit c = false end ->
  take_digits (g ++ rest) = g.
Proof.
  intros Hg Hrest. induction Hg as [|c g Hc Hg IH]; cbn [app take_digits].
  - destruct rest as [|c rest]; [done|]. cbn [take_digits]. by rewrite Hrest.
  - by rewrite Hc, IH.
Qed.

Lemma match_tmdb_at_sound (s g : str) :
  match_tmdb_at s = Some g ->
  exists after,
    s = lit "[tmdb-" ++ g ++ lit "]" ++ after /\ g <> [] /\ digits g.
Proof.
  unfold match_tmdb_at.
  destruct (startswith (lit "[tmdb-") s) eqn:Hs; [|done].
  apply startswith_inv in Hs. change (length (lit "[tmdb-")) with 6%nat in Hs.
  destruct (take_digits_split (drop 6 s)) as [Hsplit Hd].
  destruct (take_digits (drop 6 s)) as [|d ds] eqn:Htd; [done|].
  destruct (drop (length (d :: ds)) (drop 6 s)) as [|c after] eqn:Hdrop;
    [done|].
  destruct (N.eqb_spec c 93) as [->|]; [|done].
  intros [= <-]. exists after. split; [|done].
  rewrite Hs at 1. f_equal. exact Hsplit.
Qed.

Hypothesis bracket_no_digit : decimal 93%N = None.

Lemma match_tmdb_at_complete (g after : str) :
  g <> [] -> digits g ->
  match_tmdb_at (lit "[tmdb-" ++ g ++ lit "]" ++ after) = Some g.
Proof.
  intros Hne Hg. unfold match_tmdb_at. rewrite startswith_app. cbv zeta.
  change (drop 6 (lit "[tmdb-" ++ g ++ lit "]" ++ after))
    with (g ++ lit "]" ++ after).
  rewrite take_digits_app; [|done|].
  - destruct g as [|d g']; [done|]. cbv iota. by rewrite drop_app_length.
  - change (is_digit 93%N = false). unfold is_digit.
    by rewrite bracket_no_digit.
Qed.

(** The digits of a tag are determined by where the tag begins. *)
Lemma match_tmdb_at_unique (s g g' after' : str) :
  match_tmdb_at s = Some g ->
  s = lit "[tmdb-" ++ g' ++ lit "]" ++ after' -> g' <> [] -> digits g' ->
  g' = g.
Proof.
  intros Hm -> Hne Hg. rewrite match_tmdb_at_complete in Hm by done.
  by injection Hm.
Qed.

Lemma search_tmdb_cons (c : char) (s : str) :
  search_tmdb (c :: s)
  = match match_tmdb_at (c :: s) with
    | Some g => Some g
    | None => search_tmdb s
    end.
Proof. done. Qed.

Lemma search_tmdb_some (s g : str) :
  search_tmdb s = Some g ->
  exists before after,
    s = before ++ lit "[tmdb-" ++ g ++ lit "]" ++ after
    /\ g <> [] /\ digits g
    /\ forall before' g' after',
         s = before' ++ lit "[tmdb-" ++ g' ++ lit "]" ++ after' ->
         g' <> [] -> digits g' ->
         (length before <= length before')%nat
         /\ (length before' = length before -> g' = g).
Proof.
  induction s as [|c s IH].
  - cbn. done.
  - rewrite search_tmdb_cons.
    destruct (match_tmdb_at (c :: s)) as [g0|] eqn:Hm.
    + intros [= ->].
      destruct (match_tmdb_at_sound _ _ Hm) as (after & Hs & Hne & Hg).
      exists [], after. split; [done|]. split; [done|]. split; [done|].
      intros before' g' after' Hs' Hne' Hg'. split; [cbn; lia|].
      intros Hlen. destruct before' as [|]; [|done].
      by eapply match_tmdb_at_unique.
    + intros Hsearch.
      destruct (IH Hsearch) as (before & after & Hs & Hne & Hg & Hleft).
      exists (c :: before), after. split; [by rewrite Hs|].
      split; [done|]. split; [done|].
      intros before' g' after' Hs' Hne' Hg'.
      destruct before' as [|c' before'].
      * rewrite app_nil_l in Hs'. rewrite Hs' in Hm.
        by rewrite match_tmdb_at_complete in Hm.
      * injection Hs' as -> Hs'.
        destruct (Hleft before' g' after' Hs' Hne' Hg') as [Hle Heq].
        split; [cbn; lia|]. intros Hlen. apply Heq. cbn in Hlen. lia.
Qed.

Lemma search_tmdb_none (s : str) :
  search_tmdb s = None ->
  forall before g after,
    g <> [] -> digits g ->
    s <> before ++ lit "[tmdb-" ++ g ++ lit "]" ++ after.
Proof.
  induction s as [|c s IH]; intros Hnone before g after Hne Hg Hs.
  - by destruct before.
  - rewrite search_tmdb_cons in Hnone.
    destruct (match_tmdb_at (c :: s)) as [g0|] eqn:Hm; [done|].
    destruct before as [|c' before].
    + rewrite app_nil_l in Hs. rewrite Hs in Hm.
      by rewrite match_tmdb_at_complete in Hm.
    + injection Hs as -> Hs. exact (IH Hnone before g after Hne Hg Hs).
Qed.

Lemma match_tmdb_at_opening (s : str) :
  startswith (lit "[tmdb-") s = false -> match_tmdb_at s = None.
Proof. intros H. unfold match_tmdb_at. by rewrite H. Qed.

Lemma search_tmdb_match (s g : str) :
  match_tmdb_at s = Some g -> search_tmdb s = Some g.
Proof. intros H. destruct s; cbn [search_tmdb]; by rewrite H. Qed.

Lemma search_tmdb_first_tag (before g after : str) :
  contains (lit "[tmdb-") before = false ->
  g <> [] -> digits g ->
  search_tmdb (before ++ lit "[tmdb-" ++ g ++ lit "]" ++ after) = Some g.
Proof.
  intros Hc Hne Hg. induction before as [|c before IH].
  - rewrite app_nil_l. apply search_tmdb_match.
    by apply match_tmdb_at_complete.
  - cbn [contains] in Hc. apply orb_false_iff in Hc as [Hstart Hrest].
    rewrite <- app_comm_cons, search_tmdb_cons.
    rewrite app_comm_cons, match_tmdb_at_opening.
    + by apply IH.
    + by apply startswith_tag_straddle.
Qed.

End TagFacts.

(** X11.  The tag of a folder name.  [search_tmdb] models the search
    for the pattern of a tmdb tag, an opening bracket, the letters tmdb, a
    dash, one or more digits and a closing bracket.  When it finds
    digits, the name holds a tag with exactly these digits, and no tag
    begins further left; when it finds nothing, the name holds no tag.  A
    name built by appending a tag to a text that does not contain the
    opening of a tag reads back the digits appended. *)
Theorem search_tmdb_leftmost_tag (U : UnicodeData)
    (bracket_no_digit : decimal 93%N = None) (s : str) :
  let digits := Forall (fun c : char => is_digit c = true) in
  let tag g := lit "[tmdb-" ++ g ++ lit "]" in
  match search_tmdb s with
  | Some g =>
      exists before after,
        s = before ++ tag g ++ after
        /\ g <> [] /\ digits g
        /\ forall before' g' after',
             s = before' ++ tag g' ++ after' -> g' <> [] -> digits g' ->
             (length before <= length before')%nat
  | None =>
      forall before g after,
        g <> [] -> digits g -> s <> before ++ tag g ++ after
  end
  /\ forall before g after,
       contains (lit "[tmdb-") before = false -> g <> [] -> digits g ->
       search_tmdb (before ++ tag g ++ after) = Some g.
Proof.
  intros digits tag. split.
  - destruct (search_tmdb s) as [g|] eqn:Hs.
    + destruct (search_tmdb_some bracket_no_digit s g Hs)
        as (before & after & Heq & Hne & Hg & Hleft).
      exists before, after. subst tag. cbv beta. rewrite <- !app_assoc.
      split; [exact Heq|]. split; [exact Hne|]. split; [exact Hg|].
      intros before' g' after' Hs' Hne' Hg'. rewrite <- !app_assoc in Hs'.
      by destruct (Hleft before' g' after' Hs' Hne' Hg').
    + intros before g after Hne Hg. subst tag. cbv beta.
      rewrite <- !app_assoc. by apply search_tmdb_none.
  - intros before g after Hc Hne Hg. subst tag. cbv beta.
    rewrite <- !app_assoc. by apply search_tmdb_first_tag.
Qed.

Lemma search_tmdb_leftmost_tag_witness :
  @decimal ascii_data 93%N = None
  /\ @search_tmdb ascii_data
       (lit "Metropolis (1927) " ++ (lit "[tmdb-" ++ lit "19" ++ lit "]")
        ++ [])
     = Some (lit "19").
Proof.
  assert (@decimal ascii_data 93%N = None) as Hb by reflexivity.
  split; [exact Hb|].
  apply (proj2 (search_tmdb_leftmost_tag ascii_data Hb [])).
  - vm_compute. reflexivity.
  - discriminate.
  - repeat constructor.
Defined.

(** ** The year of a folder name *)

Section YearMore.
Context {U : UnicodeData}.

Local Abbreviation digits := (Forall (fun c : char => is_digit c = true)).

Lemma match_year_at_complete (g after : str) :
  length g = 4%nat -> digits g ->
  match_year_at (lit "(" ++ g ++ lit ")" ++ after) = Some g.
Proof.
  intros Hlen Hg.
  destruct g as [|d1 [|d2 [|d3 [|d4 [|d5 g]]]]]; try done.
  apply Forall_cons in Hg as [H1 Hg]. apply Forall_cons in Hg as [H2 Hg].
  apply Forall_cons in Hg as [H3 Hg]. apply Forall_cons in Hg as [H4 _].
  change (lit "(" ++ [d1; d2; d3; d4] ++ lit ")" ++ after)
    with (40%N :: d1 :: d2 :: d3 :: d4 :: 41%N :: after).
  unfold match_year_at. by rewrite H1, H2, H3, H4.
Qed.

Lemma match_year_at_paren (c : char) (s : str) :
  c <> 40%N -> match_year_at (c :: s) = None.
Proof.
  intros Hc. unfold match_year_at.
  destruct s as [|d1 [|d2 [|d3 [|d4 [|q s]]]]]; try done.
  by destruct (N.eqb_spec c 40).
Qed.

Lemma search_year_first (before g after : str) :
  40%N ∉ before -> length g = 4%nat -> digits g ->
  search_year (before ++ lit "(" ++ g ++ lit ")" ++ after) = Some g.
Proof.
  intros Hb Hlen Hg. induction before as [|c before IH].
  - rewrite app_nil_l.
    pose proof (match_year_at_complete g after Hlen Hg) as Hm.
    change (lit "(" ++ g ++ lit ")" ++ after)
      with (40%N :: g ++ lit ")" ++ after) in Hm |- *.
    cbn [search_year]. by rewrite Hm.
  - apply not_elem_of_cons in Hb as [Hc Hb].
    rewrite <- app_comm_cons. cbn [search_year].
    rewrite match_year_at_paren by done. by apply IH.
Qed.

Hypothesis decimal_digit : forall c d, decimal c = Some d -> 0 <= d <= 9.

Lemma digit_value (c : char) :
  is_digit c = true -> 0 <= default 0 (decimal c) <= 9.
Proof.
  unfold is_digit. destruct (decimal c) as [d|] eqn:Hd; [|done].
  intros _. exact (decimal_digit c d Hd).
Qed.

Lemma int_of_four_digits (g : str) :
  length g = 4%nat -> digits g -> 0 <= int_of_digits g <= 9999.
Proof.
  intros Hlen Hg.
  destruct g as [|d1 [|d2 [|d3 [|d4 [|d5 g]]]]]; try done.
  apply Forall_cons in Hg as [H1 Hg]. apply Forall_cons in Hg as [H2 Hg].
  apply Forall_cons in Hg as [H3 Hg]. apply Forall_cons in Hg as [H4 _].
  pose proof (digit_value d1 H1). pose proof (digit_value d2 H2).
  pose proof (digit_value d3 H3). pose proof (digit_value d4 H4).
  unfold int_of_digits. cbn [fold_left]. lia.
Qed.

End YearMore.

(** X12.  The year of a folder name.  In a database whose decimal
    digits have the values 0 to 9, the year that
    [_extract_year_from_folder] reads lies between 0 and 9999.  It is 0
    when the name holds no opening parenthesis; and when four digits in
    parentheses follow a text without opening parenthesis it is the value
    of these digits, whatever comes after them. *)
Theorem extract_year_first_group (U : UnicodeData)
    (decimal_digit : forall c d, decimal c = Some d -> 0 <= d <= 9)
    (name : str) :
  0 <= _extract_year_from_folder name <= 9999
  /\ (40%N ∉ name -> _extract_year_from_folder name = 0)
  /\ (forall before g after,
        name = before ++ lit "(" ++ g ++ lit ")" ++ after ->
        40%N ∉ before -> length g = 4%nat ->
        Forall (fun c => is_digit c = true) g ->
        _extract_year_from_folder name = int_of_digits g).
Proof.
  split; [|split].
  - unfold _extract_year_from_folder.
    destruct (search_year name) as [g|] eqn:Hs; [|lia].
    apply search_year_sound in Hs as (_ & _ & _ & Hlen & Hg).
    by apply int_of_four_digits.
  - intros Hno. unfold _extract_year_from_folder.
    destruct (search_year name) as [g|] eqn:Hs; [|done].
    apply search_year_sound in Hs as (before & after & -> & _).
    exfalso. apply Hno. apply elem_of_app. right. by left.
  - intros before g after -> Hb Hlen Hg. unfold _extract_year_from_folder.
    by rewrite search_year_first.
Qed.

Lemma extract_year_first_group_witness :
  (forall c d, @decimal ascii_data c = Some d -> 0 <= d <= 9)
  /\ 0 <= @_extract_year_from_folder ascii_data old_folder <= 9999.
Proof.
  assert (forall c d, @decimal ascii_data c = Some d -> 0 <= d <= 9) as Hd.
  { intros c d. cbn. unfold ascii_decimal.
    destruct (N.leb_spec 48 c), (N.leb_spec c 57); cbn [andb]; try done.
    intros [= <-]. lia. }
  split; [exact Hd|].
  exact (proj1 (extract_year_first_group ascii_data Hd old_folder)).
Defined.

(** ** The counters of the public API *)


(** X13.  The counters of [download_trailer].  A call with the
    trailer already in the folder returns true and leaves the counters as
    they are.  Every other call adds one to exactly one counter: to the
    downloads when it returns true, which it does only when the search
    gave a URL and the download of that URL succeeded, and to the failures
    when it returns false, an exception raised by the check of the folder
    included. *)
Theorem download_trailer_accounting (U : UnicodeData) (Exn : Type)
    (trailer_exists : str -> Exn + bool)
    (_yt_search_json : list SearchEvent -> str -> list Candidate)
    (_download_with_ytdlp : str -> str -> bool)
    (stats : TrailerStats) (folder original_title en_title year : str)
    (is_show : bool) :
  let result :=
    download_trailer Exn trailer_exists _yt_search_json _download_with_ytdlp
      stats folder original_title en_title year is_show in
  let found :=
    (_search_youtube_validated _yt_search_json original_title en_title year
       is_show false 0).1 in
  (trailer_exists folder = inr true -> result = (true, stats))
  /\ (trailer_exists folder <> inr true ->
      result = (true, count_downloaded stats)
      \/ result = (false, count_failed stats))
  /\ (result = (true, count_downloaded stats) ->
      trailer_exists folder = inr false
      /\ exists url, found = Some url
                     /\ _download_with_ytdlp url folder = true)
  /\ (forall e, trailer_exists folder = inl e ->
      result = (false, count_failed stats))
  /\ (found = None -> trailer_exists folder <> inr true ->
      result = (false, count_failed stats)).
Proof.
  intros result found. subst result found. unfold download_trailer.
  assert (stats <> count_downloaded stats) as Hchange.
  { intros H. apply (f_equal trailers_downloaded) in H. cbn in H. lia. }
  destruct (trailer_exists folder) as [e|[|]] eqn:He;
    [| |destruct (_search_youtube_validated _yt_search_json original_title
                    en_title year is_show false 0).1 as [[|c url]|] eqn:Hs;
        cbn [truthy negb];
        [|destruct (_download_with_ytdlp (c :: url) folder) eqn:Hd|]].
  all: repeat split; intros; try done; try (by right); try (by left);
    try (by eexists); by simplify_eq.
Qed.

(** ** The tokens of a text *)

Lemma flush_app (cur : str) (x y : list str) :
  flush cur (x ++ y) = flush cur x ++ y.
Proof. by destruct cur. Qed.

Lemma findall_words_from_sep (cur a b : str) (sep : char) :
  is_word_char sep = false ->
  findall_words_from cur (a ++ sep :: b)
  = findall_words_from cur a ++ findall_words_from [] b.
Proof.
  intros Hsep. revert cur. induction a as [|c a IH]; intros cur.
  - cbn [app findall_words_from]. rewrite Hsep.
    by rewrite <- flush_app.
  - cbn [app findall_words_from]. destruct (is_word_char c); [apply IH|].
    by rewrite IH, flush_app.
Qed.

Lemma findall_words_from_run (cur w : str) :
  Forall (fun c => is_word_char c = true) w ->
  findall_words_from cur w = flush (reverse w ++ cur) [].
Proof.
  intros Hw. revert cur. induction Hw as [|c w Hc _ IH]; intros cur; [done|].
  cbn [findall_words_from]. rewrite Hc, IH, reverse_cons.
  by rewrite <- app_assoc.
Qed.

Lemma findall_words_from_chars (cur s : str) :
  Forall (fun c => is_word_char c = true) cur ->
  Forall (Forall (fun c => is_word_char c = true))
    (findall_words_from cur s).
Proof.
  revert cur. induction s as [|c s IH]; intros cur Hcur.
  - cbn. destruct cur; [done|]. apply Forall_singleton.
    by apply Forall_reverse.
  - cbn [findall_words_from]. destruct (is_word_char c) eqn:Hc.
    + apply IH. by constructor.
    + destruct cur as [|a cur]; cbn [flush]; [by apply IH|].
      constructor; [by apply Forall_reverse|by apply IH].
Qed.

Lemma ascii_lower_ascii (t : str) : is_ascii t -> is_ascii (map ascii_lower t).
Proof.
  intros Ht. apply Forall_map. eapply Forall_impl; [exact Ht|].
  intros c Hc. cbv beta in Hc |- *. unfold ascii_lower.
  destruct (N.leb_spec 65 c), (N.leb_spec c 90); cbn [andb]; lia.
Qed.

Lemma ascii_lower_word (c : char) :
  is_word_char c = true -> ascii_lower c = c.
Proof.
  unfold is_word_char, ascii_lower. intros H.
  destruct (N.leb_spec 65 c), (N.leb_spec c 90); cbn [andb]; try done.
  exfalso.
  destruct (N.leb_spec 97 c), (N.leb_spec c 122), (N.leb_spec 48 c),
    (N.leb_spec c 57); cbn in H; try done; lia.
Qed.

Lemma word_char_ascii (c : char) : is_word_char c = true -> (c < 128)%N.
Proof.
  unfold is_word_char. intros H.
  destruct (N.leb_spec 97 c), (N.leb_spec c 122), (N.leb_spec 48 c),
    (N.leb_spec c 57); cbn in H; try done; lia.
Qed.

(** X14.  The tokens of a text.  For every text and every character
    database, every token is a non-empty run of the characters a to z and
    0 to 9.  For ASCII text, in a database that treats ASCII as Unicode
    does: the tokens of two texts joined by a character that is no letter
    and no digit are the tokens of the one and of the other; upper and
    lower case give the same tokens; and a text that is one run of
    lower-case letters and digits is its own only token. *)
Theorem extract_words_ascii_text (U : UnicodeData) (text : str) :
  (forall w, w ∈ _extract_words text ->
     w <> [] /\ Forall (fun c => is_word_char c = true) w)
  /\ (AsciiFaithful U ->
      forall (a b : str) (sep : char),
        is_ascii a -> is_ascii b -> (sep < 128)%N ->
        is_word_char (ascii_lower sep) = false ->
        _extract_words (a ++ sep :: b) = _extract_words a ∪ _extract_words b
        /\ _extract_words (map ascii_lower a) = _extract_words a
        /\ (a <> [] -> Forall (fun c => is_word_char c = true) a ->
            _extract_words a = {[a]})).
Proof.
  split.
  - intros w Hw. split.
    + intros ->. by apply extract_words_nonempty in Hw.
    + unfold _extract_words in Hw. apply elem_of_list_to_set in Hw.
      pose proof (findall_words_from_chars [] (_normalize text)
                    (Forall_nil_2 _)) as Hall.
      rewrite Forall_forall in Hall. by apply Hall.
  - intros faithful a b sep Ha Hb Hsep Hnon. split; [|split].
    + assert (is_ascii (a ++ sep :: b)) as Hab.
      { apply Forall_app. split; [done|]. by constructor. }
      unfold _extract_words.
      rewrite (normalize_ascii faithful (a ++ sep :: b) Hab).
      rewrite (normalize_ascii faithful a Ha), (normalize_ascii faithful b Hb).
      rewrite map_app. cbn [map]. unfold findall_words.
      rewrite findall_words_from_sep by done.
      by rewrite list_to_set_app_L.
    + unfold _extract_words.
      rewrite (normalize_ascii faithful) by by apply ascii_lower_ascii.
      rewrite (normalize_ascii faithful) by done.
      f_equal. f_equal. rewrite map_map. apply map_ext. intros c.
      apply ascii_lower_idempotent.
    + intros Hne Hw. unfold _extract_words.
      rewrite (normalize_ascii faithful) by done.
      assert (map ascii_lower a = a) as ->.
      { clear Ha Hne. induction Hw as [|c a Hc _ IH]; [done|].
        cbn [map]. by rewrite IH, ascii_lower_word. }
      unfold findall_words. rewrite findall_words_from_run by done.
      rewrite app_nil_r. destruct (reverse a) as [|c r] eqn:Hr.
      * apply (f_equal reverse) in Hr. rewrite reverse_involutive in Hr. done.
      * cbn [flush]. rewrite <- Hr, reverse_involutive. set_solver.
Qed.

Lemma extract_words_ascii_text_witness :
  AsciiFaithful ascii_data
  /\ is_ascii (lit "Dune") /\ is_ascii (lit "Trailer") /\ (32 < 128)%N
  /\ is_word_char (ascii_lower 32%N) = false
  /\ @_extract_words ascii_data (lit "Dune" ++ 32%N :: lit "Trailer")
     = @_extract_words ascii_data (lit "Dune")
       ∪ @_extract_words ascii_data (lit "Trailer")
  /\ (forall w,
        w ∈ @_extract_words ascii_data (lit "Dune" ++ 32%N :: lit "Trailer")
        -> w <> [] /\ Forall (fun c => is_word_char c = true) w).
Proof.
  assert (is_ascii (lit "Dune")) as Ha by (repeat constructor).
  assert (is_ascii (lit "Trailer")) as Hb by (repeat constructor).
  assert (32 < 128)%N as Hs by reflexivity.
  assert (is_word_char (ascii_lower 32%N) = false) as Hn by reflexivity.
  split; [exact ascii_data_faithful|]. split; [exact Ha|].
  split; [exact Hb|]. split; [exact Hs|]. split; [exact Hn|].
  split.
  - exact (proj1 (proj2 (extract_words_ascii_text ascii_data
                           (lit "Dune" ++ 32%N :: lit "Trailer"))
                    ascii_data_faithful (lit "Dune") (lit "Trailer") 32%N
                    Ha Hb Hs Hn)).
  - exact (proj1 (extract_words_ascii_text ascii_data
                    (lit "Dune" ++ 32%N :: lit "Trailer"))).
Defined.

(** ** The queries of a search *)

Lemma uint_chars (d : Decimal.uint) :
  Forall (fun c => (48 <= c <= 57)%N) (lit (NilEmpty.string_of_uint d)).
Proof.
  induction d; cbn [NilEmpty.string_of_uint]; [done|..];
    (apply Forall_cons; split; [cbn; lia|exact IHd]).
Qed.

Lemma digits_of_N_chars (n : N) :
  Forall (fun c => (48 <= c <= 57)%N) (digits_of_N n).
Proof.
  unfold digits_of_N, NilZero.string_of_uint.
  destruct (N.to_uint n) eqn:E; try apply uint_chars.
  apply Forall_singleton. cbn. lia.
Qed.

Lemma format_d_chars (n : Z) :
  Forall (fun c => c = 45%N \/ (48 <= c <= 57)%N) (format_d n).
Proof.
  unfold format_d. destruct (n <? 0).
  - apply Forall_app. split; [apply Forall_singleton; by left|].
    eapply Forall_impl; [apply digits_of_N_chars|]. intros c Hc. by right.
  - eapply Forall_impl; [apply digits_of_N_chars|]. intros c Hc. by right.
Qed.

Lemma format_d_no_colon (n : Z) : colon ∉ format_d n.
Proof.
  intros Hin. pose proof (format_d_chars n) as Hall.
  rewrite Forall_forall in Hall. specialize (Hall _ Hin).
  unfold colon in Hall. lia.
Qed.

(** X15.  The shape of the queries.  [_build_queries] returns between
    one and five queries, at most three in season context, where the
    category of the item plays no part.  Each query begins with one of the
    two titles, colons stripped, followed by a space, and ends with the
    word trailer; the query of the English title for the official trailer
    is always among them.  When the original title is empty or equals the
    English one once the colons are stripped, every query is about the
    English title.  No query holds a colon when the year holds none. *)
Theorem build_queries_shape (original_title en_title year : str)
    (is_show is_season : bool) (season_num : Z) :
  let queries :=
    _build_queries original_title en_title year is_show is_season
      season_num in
  let en := strip_colons en_title in
  let original := strip_colons original_title in
  (1 <= length queries <= 5)%nat
  /\ (is_season = true ->
      (length queries <= 3)%nat
      /\ queries = _build_queries original_title en_title year
                     (negb is_show) true season_num)
  /\ Forall (fun q =>
               ((exists rest, q = en ++ lit " " ++ rest)
                \/ (exists rest, q = original ++ lit " " ++ rest))
               /\ exists front, q = front ++ lit " trailer") queries
  /\ en ++ (if is_season then lit " season " ++ format_d season_num else [])
        ++ lit " official trailer" ∈ queries
  /\ (original = [] \/ original = en ->
      Forall (fun q => exists rest, q = en ++ lit " " ++ rest) queries)
  /\ (colon ∉ year -> Forall (fun q => colon ∉ q) queries).
Proof.
  intros queries en original.
  pose proof (build_queries_length original_title en_title year is_show
                is_season season_num) as [Hlen Hseason].
  fold queries in Hlen, Hseason.
  split; [exact Hlen|].
  split.
  { intros ->. split; [by apply Hseason|].
    subst queries. unfold _build_queries. done. }
  assert (queries
          = if is_season then
              (if bool_decide (original <> [] /\ original <> en)
               then [original ++ lit " season " ++ format_d season_num
                     ++ lit " official trailer"]
               else [])
              ++ [en ++ lit " season " ++ format_d season_num
                  ++ lit " official trailer"]
              ++ (if truthy year
                  then [en ++ lit " season " ++ format_d season_num
                        ++ lit " " ++ year ++ lit " trailer"]
                  else [])
            else
              (if truthy year
               then [en ++ lit " " ++ year ++ lit " official trailer";
                     en ++ lit " " ++ year ++ lit " "
                     ++ (if is_show then lit "tv series" else lit "movie")
                     ++ lit " trailer"]
               else [])
              ++ [en ++ lit " official trailer"]
              ++ (if bool_decide (original <> [] /\ original <> en)
                  then (if truthy year
                        then [original ++ lit " " ++ year
                              ++ lit " official trailer"]
                        else [])
                       ++ [original ++ lit " trailer"]
                  else [])) as Hq.
  { subst queries en original. unfold _build_queries. cbv zeta.
    rewrite stripped_original, differs_test. done. }
  clear Hlen Hseason. rewrite Hq. clear Hq queries.
  split; [|split; [|split]].
  - destruct is_season, (truthy year), (bool_decide _); cbn [app];
      repeat (apply Forall_cons; split); try apply Forall_nil_2.
    all: split;
      [first [by left; eexists; reflexivity
             |by right; eexists; reflexivity]
      |try change (lit " official trailer")
         with (lit " official" ++ lit " trailer");
       eexists; rewrite ?app_assoc; reflexivity].
  - destruct is_season, (truthy year), (bool_decide _); cbn [app];
      rewrite <- ?app_assoc; set_solver.
  - intros Hsame.
    rewrite (bool_decide_eq_false_2 (original <> [] /\ original <> en))
      by (intros [? ?]; by destruct Hsame).
    destruct is_season, (truthy year); cbn [app];
      repeat (apply Forall_cons; split); try apply Forall_nil_2;
      eexists; reflexivity.
  - intros Hyear.
    pose proof (strip_colons_clean original_title) as HL.
    pose proof (strip_colons_clean en_title) as HF.
    fold original in HL. fold en in HF.
    pose proof (format_d_no_colon season_num) as Hn.
    assert (colon ∉ (if is_show then lit "tv series" else lit "movie"))
      as Hcat by (destruct is_show; by apply no_colon_lit).
    assert (colon ∉ lit " ") as Hsp by by apply no_colon_lit.
    assert (colon ∉ lit " season ") as Hse by by apply no_colon_lit.
    assert (colon ∉ lit " official trailer") as Hoff
      by by apply no_colon_lit.
    assert (colon ∉ lit " trailer") as Htr by by apply no_colon_lit.
    destruct is_season, (truthy year), (bool_decide _); cbn [app];
      repeat (apply Forall_cons; split); try apply Forall_nil_2;
      repeat (apply no_colon_app); assumption.
Qed.

(** ** The trailers of the seasons *)



Lemma filter_season_none (subfolders : list str) :
  Forall (fun folder => startswith (lit "Season") folder = false)
    subfolders ->
  filter (fun name => startswith (lit "Season") name = true) subfolders = [].
Proof.
  induction 1 as [|folder rest Hf _ IH]; [done|].
  rewrite filter_cons_False; [done|]. by rewrite Hf.
Qed.

Section SeasonFacts.
Context {U : UnicodeData}.
Variable season_number : str -> option Z.
Variable trailer_exists : str -> bool.
Variable _yt_search_json :
  list SeasonEvent -> list SearchEvent -> str -> list Candidate.
Variable _download_with_ytdlp : str -> str -> bool.
Variables original_name en_name : str.

Local Abbreviation loop :=
  (season_loop season_number trailer_exists _yt_search_json
     _download_with_ytdlp original_name en_name).

Lemma season_added_more (folder : str) (rest : list str)
    (st st' : SeasonState) (new : list SeasonEvent) :
  season_added season_number rest st st' new ->
  season_added season_number (folder :: rest) st st' new.
Proof.
  intros (? & ? & ? & ? & Hall). repeat split; try done.
  eapply Forall_impl; [exact Hall|]. intros e (Hne & f & Hf & Hn).
  split; [done|]. exists f. split; [by right|done].
Qed.

Lemma season_added_step (folder : str) (rest : list str)
    (st st1 st2 : SeasonState) (e : SeasonEvent) (new : list SeasonEvent) :
  season_number folder = Some (event_season e) ->
  event_season e <> 1 ->
  season_events st1 = season_events st ++ [e] ->
  seasons_found st1 = seasons_found st + (if is_download e then 1 else 0) ->
  trailers_downloaded (season_stats st1)
  = trailers_downloaded (season_stats st)
    + (if is_download e then 1 else 0) ->
  trailers_failed (season_stats st1) = trailers_failed (season_stats st) ->
  season_added season_number rest st1 st2 new ->
  season_added season_number (folder :: rest) st st2 (e :: new).
Proof.
  intros Hnum Hne Hev Hfound Hdown Hfail.
  intros (Hev' & Hfound' & Hdown' & Hfail' & Hall).
  split; [by rewrite Hev', Hev, <- app_assoc|]. cbn [downloads].
  split; [lia|]. split; [lia|]. split; [lia|].
  apply Forall_cons. split.
  - split; [done|]. exists folder. split; [by left|done].
  - eapply Forall_impl; [exact Hall|]. intros e' (Hne' & f & Hf & Hn).
    split; [done|]. exists f. split; [by right|done].
Qed.

Lemma season_added_refl (folders : list str) (st : SeasonState) :
  season_added season_number folders st st [].
Proof.
  split; [by rewrite app_nil_r|]. cbn [downloads].
  repeat split; try lia. done.
Qed.

Lemma season_loop_adds (folders : list str) (st : SeasonState) :
  exists new, season_added season_number folders st (loop folders st) new.
Proof.
  revert st. induction folders as [|folder rest IH]; intros st.
  - exists []. apply season_added_refl.
  - cbn [season_loop].
    destruct (season_number folder) as [season_num|] eqn:Hnum.
    2: { destruct (IH st) as (new & Hnew). exists new.
         by apply season_added_more. }
    destruct (Z.eqb_spec season_num 1) as [->|Hne].
    { destruct (IH st) as (new & Hnew). exists new.
      by apply season_added_more. }
    destruct (trailer_exists folder).
    { match goal with
      | |- context [loop rest ?s] => destruct (IH s) as (new & Hnew)
      end.
      exists (SeasonExists season_num :: new).
      eapply season_added_step; [exact Hnum|exact Hne|..|exact Hnew];
        cbn; (done || lia). }
    set (downloaded :=
           match (_search_youtube_validated
                    (_yt_search_json (season_events st)) original_name
                    en_name [] true true season_num).1 with
           | Some url => truthy url && _download_with_ytdlp url folder
           | None => false
           end).
    destruct downloaded.
    { match goal with
      | |- context [loop rest ?s] => destruct (IH s) as (new & Hnew)
      end.
      exists (SeasonTried season_num true :: new).
      eapply season_added_step; [exact Hnum|exact Hne|..|exact Hnew];
        cbn; (done || lia). }
    cbv zeta.
    destruct (2 <=? consecutive_misses st + 1).
    + exists [SeasonTried season_num false].
      eapply season_added_step;
        [exact Hnum|exact Hne|..|apply season_added_refl];
        cbn; (done || lia).
    + match goal with
      | |- context [loop rest ?s] => destruct (IH s) as (new & Hnew)
      end.
      exists (SeasonTried season_num false :: new).
      eapply season_added_step; [exact Hnum|exact Hne|..|exact Hnew];
        cbn; (done || lia).
Qed.


End SeasonFacts.

(** X16.  The counters of the season trailers.  A call of
    [_download_season_trailers] never touches the count of failures; it
    adds to the count of downloads the number of seasons it found a
    trailer for, one for each search that ended in a download.  Every
    season it looks at is numbered by a sub-folder whose name starts with
    Season, and is never season 1.  With no such sub-folder nothing is
    searched. *)
Theorem season_trailers_accounting (U : UnicodeData)
    (isspace : char -> bool) (season_number : str -> option Z)
    (trailer_exists : str -> bool)
    (_yt_search_json :
       list SeasonEvent -> list SearchEvent -> str -> list Candidate)
    (_download_with_ytdlp : str -> str -> bool)
    (stats : TrailerStats) (show_folder : str) (subfolders : list str)
    (original_name en_name : str) :
  let st :=
    _download_season_trailers isspace season_number trailer_exists
      _yt_search_json _download_with_ytdlp stats show_folder subfolders
      original_name en_name in
  trailers_failed (season_stats st) = trailers_failed stats
  /\ trailers_downloaded (season_stats st)
     = trailers_downloaded stats + seasons_found st
  /\ seasons_found st = downloads (season_events st)
  /\ Forall (fun e =>
               event_season e <> 1
               /\ exists folder,
                    folder ∈ subfolders
                    /\ startswith (lit "Season") folder = true
                    /\ season_number folder = Some (event_season e))
       (season_events st)
  /\ (Forall (fun folder => startswith (lit "Season") folder = false)
        subfolders ->
      season_events st = [] /\ season_stats st = stats).
Proof.
  intros st. subst st. unfold _download_season_trailers.
  set (season_folders :=
         filter (fun name => startswith (lit "Season") name = true)
           subfolders).
  assert (forall folder, folder ∈ merge_sort str_le season_folders ->
            folder ∈ subfolders
            /\ startswith (lit "Season") folder = true) as Hfrom.
  { intros folder Hin. rewrite merge_sort_Permutation in Hin.
    by apply list_elem_of_filter in Hin as [? ?]. }
  assert (Forall (fun folder => startswith (lit "Season") folder = false)
            subfolders -> season_folders = []) as Hnone
    by apply filter_season_none.
  set (name := if negb (truthy en_name)
               then strip isspace (before_paren show_folder) else en_name).
  set (start := {| seasons_found := 0; consecutive_misses := 0;
                   season_stats := stats; season_events := [] |}).
  destruct (season_loop_adds season_number trailer_exists _yt_search_json
              _download_with_ytdlp original_name name
              (merge_sort str_le season_folders) start)
    as (new & Hev & Hfound & Hdown & Hfail & Hall).
  cbn [season_events seasons_found season_stats start app] in *.
  destruct season_folders as [|first others] eqn:Hsf.
  { cbn. repeat split; try done; lia. }
  rewrite Hev, Hfound, Hdown, Hfail.
  split; [done|]. split; [lia|]. split; [lia|]. split.
  - eapply Forall_impl; [exact Hall|].
    intros e (Hne & folder & Hin & Hnum). split; [done|].
    exists folder. destruct (Hfrom folder Hin). done.
  - intros Hno. by specialize (Hnone Hno).
Qed.


(** ** The name of an episode file *)

Lemma format_02d_chars (n : Z) :
  Forall (fun c => c = 45%N \/ (48 <= c <= 57)%N) (format_02d n).
Proof.
  unfold format_02d. destruct (length (format_d n) <? 2)%nat.
  - apply Forall_app. split; [|apply format_d_chars].
    apply Forall_singleton. right. cbn. lia.
  - apply format_d_chars.
Qed.

Lemma episode_char (c : char) :
  c = 45%N \/ (48 <= c <= 57)%N \/ c = 83%N \/ c = 69%N ->
  invalid_char c = false /\ ascii_isspace c = false /\ (c < 128)%N.
Proof.
  intros Hc. split; [|split; [|lia]].
  - unfold invalid_char. cbn [existsb].
    repeat match goal with
           | |- context [N.eqb c ?v] =>
               destruct (N.eqb_spec c v) as [?|_]; [lia|]
           end.
    done.
  - unfold ascii_isspace.
    destruct (N.leb_spec 9 c), (N.leb_spec c 13), (N.leb_spec 28 c),
      (N.leb_spec c 32); cbn [andb orb]; try done; lia.
Qed.

Lemma episode_tag_chars (season episode : Z) :
  Forall (fun c => c = 45%N \/ (48 <= c <= 57)%N \/ c = 83%N \/ c = 69%N)
    (lit "S" ++ format_02d season ++ lit "E" ++ format_02d episode).
Proof.
  assert (forall n,
            Forall (fun c => c = 45%N \/ (48 <= c <= 57)%N
                             \/ c = 83%N \/ c = 69%N) (format_02d n)) as Hf.
  { intros n. eapply Forall_impl; [apply format_02d_chars|].
    intros c [?|?]; tauto. }
  apply Forall_cons. split; [tauto|].
  apply Forall_app. split; [apply Hf|].
  apply Forall_cons. split; [tauto|]. apply Hf.
Qed.

Section EpisodeName.
Variable isspace : char -> bool.
Hypothesis ascii_space : forall c, (c < 128)%N -> isspace c = ascii_isspace c.

Local Abbreviation clean s :=
  (filter (fun c => invalid_char c = false) (replace_colons s)).
Local Abbreviation words s := (split_whitespace isspace (clean s)).

Lemma clean_app (x y : str) : clean (x ++ y) = clean x ++ clean y.
Proof. unfold replace_colons. by rewrite flat_map_app, filter_app. Qed.

Lemma clean_valid (s : str) :
  Forall (fun c => invalid_char c = false) s -> clean s = s.
Proof.
  intros Hs. rewrite replace_colons_clean by done.
  by apply filter_valid_clean.
Qed.

Lemma split_from_space (cur a b : str) (sp : char) :
  isspace sp = true ->
  split_from isspace cur (a ++ sp :: b)
  = split_from isspace cur a ++ split_from isspace [] b.
Proof.
  intros Hsp. revert cur. induction a as [|c a IH]; intros cur.
  - cbn [app split_from]. rewrite Hsp. by rewrite <- flush_app.
  - cbn [app split_from]. destruct (isspace c); [|apply IH].
    by rewrite IH, flush_app.
Qed.

Lemma space_is_space : isspace 32%N = true.
Proof. by rewrite ascii_space. Qed.

Lemma split_word_space (w rest : str) :
  w <> [] -> Forall (fun c => isspace c = false) w ->
  split_whitespace isspace (w ++ 32%N :: rest)
  = w :: split_whitespace isspace rest.
Proof.
  intros Hne Hw. unfold split_whitespace.
  rewrite split_from_space by apply space_is_space.
  pose proof (split_spaced isspace [w] space_is_space) as Hone.
  unfold split_whitespace in Hone. cbn [spaced] in Hone.
  rewrite Hone; [done|]. by apply Forall_singleton.
Qed.

(** The name built around the words of a title that is clean. *)
Lemma episode_name_words (show_name tag title : str) :
  tag <> [] ->
  Forall (fun c => invalid_char c = false /\ isspace c = false) tag ->
  sanitize_filename isspace
    (show_name ++ lit " - " ++ tag ++ lit " - " ++ title)
  = spaced (words show_name ++ [lit "-"; tag; lit "-"] ++ words title).
Proof.
  intros Hne Htag.
  assert (Forall (fun c => invalid_char c = false) tag) as Hvalid.
  { eapply Forall_impl; [exact Htag|]. by intros c [? _]. }
  assert (Forall (fun c => isspace c = false) tag) as Hword.
  { eapply Forall_impl; [exact Htag|]. by intros c [_ ?]. }
  destruct (sanitize_words isspace
              (show_name ++ lit " - " ++ tag ++ lit " - " ++ title))
    as (-> & _).
  f_equal.
  rewrite !clean_app, (clean_valid tag) by done.
  change (clean (lit " - ")) with ([32%N] ++ lit "-" ++ [32%N]).
  rewrite <- !app_assoc. cbn [app].
  unfold split_whitespace at 1.
  rewrite split_from_space by apply space_is_space. f_equal.
  change (split_from isspace [] ?s) with (split_whitespace isspace s).
  rewrite (split_word_space (lit "-")); [|done|].
  - f_equal. rewrite (split_word_space tag) by done.
    f_equal. by rewrite (split_word_space (lit "-"));
      [|done|apply Forall_singleton; by rewrite ascii_space].
  - apply Forall_singleton. by rewrite ascii_space.
Qed.

End EpisodeName.

(** X18.  The name of an episode file.  Where [isspace] treats ASCII
    as Python does, the canonical name of an episode is the words of the
    show name, a dash, the letter S with the season and the letter E with
    the episode (each padded to two digits), a dash, and the words of the
    episode title, with one space between two of them; the words are what
    is left of a text once colons are replaced and invalid characters
    removed.  The first sanitising of the title changes nothing in the
    result.  A title without any word leaves a name that ends in a
    dash. *)
Theorem canonical_episode_name_shape (isspace : char -> bool)
    (ascii_space : forall c, (c < 128)%N -> isspace c = ascii_isspace c)
    (show_name : str) (season episode : Z) (episode_title : str) :
  let words s :=
    split_whitespace isspace
      (filter (fun c => invalid_char c = false) (replace_colons s)) in
  let tag := lit "S" ++ format_02d season ++ lit "E" ++ format_02d episode in
  get_canonical_episode_name isspace show_name season episode episode_title
  = spaced (words show_name ++ [lit "-"; tag; lit "-"]
            ++ words episode_title)
  /\ get_canonical_episode_name isspace show_name season episode
       episode_title
     = sanitize_filename isspace
         (show_name ++ lit " - S" ++ format_02d season ++ lit "E"
          ++ format_02d episode ++ lit " - " ++ episode_title)
  /\ (words episode_title = [] ->
      get_canonical_episode_name isspace show_name season episode
        episode_title
      = spaced (words show_name ++ [lit "-"; tag; lit "-"])).
Proof.
  intros words tag.
  assert (tag <> []) as Hne by done.
  assert (Forall (fun c => invalid_char c = false /\ isspace c = false) tag)
    as Htag.
  { eapply Forall_impl; [apply episode_tag_chars|].
    intros c Hc. destruct (episode_char c Hc) as (? & ? & ?).
    split; [done|]. by rewrite ascii_space. }
  assert (forall title,
            show_name ++ lit " - S" ++ format_02d season ++ lit "E"
            ++ format_02d episode ++ lit " - " ++ title
            = show_name ++ lit " - " ++ tag ++ lit " - " ++ title) as Hname.
  { intros title. subst tag. by rewrite <- !app_assoc. }
  assert (words (sanitize_filename isspace episode_title)
          = words episode_title) as Htitle.
  { destruct (sanitize_words isspace episode_title) as (Heq & Hw & Hv).
    cbv zeta in Heq, Hw, Hv. subst words. cbv beta.
    rewrite Heq. rewrite replace_colons_clean, filter_valid_clean, split_spaced;
      try done.
    - by rewrite ascii_space.
    - apply spaced_chars; done.
    - apply spaced_chars; done. }
  assert (get_canonical_episode_name isspace show_name season episode
            episode_title
          = spaced (words show_name ++ [lit "-"; tag; lit "-"]
                    ++ words episode_title)) as Hshape.
  { unfold get_canonical_episode_name. cbv zeta.
    rewrite Hname, (episode_name_words isspace ascii_space) by done.
    fold (words show_name).
    fold (words (sanitize_filename isspace episode_title)).
    by rewrite Htitle. }
  split; [exact Hshape|]. split.
  - rewrite Hshape, Hname.
    by rewrite (episode_name_words isspace ascii_space).
  - intros Hnone. by rewrite Hshape, Hnone.
Qed.

Lemma canonical_episode_name_shape_witness :
  (forall c, (c < 128)%N -> ascii_isspace c = ascii_isspace c)
  /\ get_canonical_episode_name ascii_isspace (lit "Dark") 1 2
       (lit "Lies: Secrets?")
     = sanitize_filename ascii_isspace
         (lit "Dark" ++ lit " - S" ++ format_02d 1 ++ lit "E"
          ++ format_02d 2 ++ lit " - " ++ lit "Lies: Secrets?").
Proof.
  split; [done|].
  exact (proj1 (proj2 (canonical_episode_name_shape ascii_isspace
                         (fun _ _ => eq_refl) (lit "Dark") 1 2
                         (lit "Lies: Secrets?")))).
Defined.

Example canonical_episode_name_sample :
  get_canonical_episode_name ascii_isspace (lit "Dark") 1 2
    (lit "Lies: Secrets?")
  = lit "Dark - S01E02 - Lies - Secrets".
Proof. vm_compute. reflexivity. Qed.

(** ** The order of the season folders *)

Lemma str_leb_total (a b : str) : str_leb a b = true \/ str_leb b a = true.
Proof.
  revert b. induction a as [|x a IH]; intros [|y b]; cbn [str_leb];
    [by left|by left|by right|].
  destruct (N.ltb_spec x y), (N.ltb_spec y x), (N.eqb_spec x y),
    (N.eqb_spec y x); try lia; try (by left); try (by right).
  apply IH.
Qed.

Lemma str_leb_trans (a b c : str) :
  str_leb a b = true -> str_leb b c = true -> str_leb a c = true.
Proof.
  revert b c. induction a as [|x a IH]; intros [|y b] [|z c];
    cbn [str_leb]; try done.
  destruct (N.ltb_spec x y), (N.ltb_spec y z), (N.ltb_spec x z),
    (N.eqb_spec x y), (N.eqb_spec y z), (N.eqb_spec x z);
    try lia; try done.
  apply IH.
Qed.

Lemma str_leb_antisym (a b : str) :
  str_leb a b = true -> str_leb b a = true -> a = b.
Proof.
  revert b. induction a as [|x a IH]; intros [|y b]; cbn [str_leb];
    try done.
  destruct (N.ltb_spec x y), (N.ltb_spec y x), (N.eqb_spec x y),
    (N.eqb_spec y x); try lia; try done.
  intros Hab Hba. subst y. f_equal. by apply IH.
Qed.

Local Instance str_le_total : Total str_le.
Proof. intros a b. apply str_leb_total. Qed.

Local Instance str_le_trans : Transitive str_le.
Proof. intros a b c. apply str_leb_trans. Qed.

Section SeasonOrder.
Context {U : UnicodeData}.
Variable season_number : str -> option Z.
Variable trailer_exists : str -> bool.
Variable _yt_search_json :
  list SeasonEvent -> list SearchEvent -> str -> list Candidate.
Variable _download_with_ytdlp : str -> str -> bool.
Variables original_name en_name : str.

Local Abbreviation loop :=
  (season_loop season_number trailer_exists _yt_search_json
     _download_with_ytdlp original_name en_name).

Lemma season_loop_order (folders : list str) (st : SeasonState) :
  exists new,
    season_events (loop folders st) = season_events st ++ new
    /\ sublist (map event_season new) (omap season_number folders).
Proof.
  revert st. induction folders as [|folder rest IH]; intros st.
  - exists []. by rewrite app_nil_r.
  - assert (forall e st1 st2,
              season_number folder = Some (event_season e) ->
              season_events st1 = season_events st ++ [e] ->
              st2 = st1 \/ st2 = loop rest st1 ->
              exists new,
                season_events st2 = season_events st ++ new
                /\ sublist (map event_season new)
                     (omap season_number (folder :: rest))) as Hstep.
    { intros e st1 st2 Hnum Hev [->| ->].
      - exists [e]. split; [done|]. cbn [omap list_omap map]. rewrite Hnum.
        apply sublist_skip, sublist_nil_l.
      - destruct (IH st1) as (new & Hev' & Hsub). exists (e :: new).
        split; [by rewrite Hev', Hev, <- app_assoc|].
        cbn [omap list_omap map]. rewrite Hnum. by apply sublist_skip. }
    assert (forall st2,
              st2 = loop rest st ->
              exists new,
                season_events st2 = season_events st ++ new
                /\ sublist (map event_season new)
                     (omap season_number (folder :: rest))) as Hskip.
    { intros st2 ->. destruct (IH st) as (new & Hev & Hsub). exists new.
      split; [done|]. cbn [omap list_omap].
      destruct (season_number folder); [by apply sublist_cons|done]. }
    cbn [season_loop].
    destruct (season_number folder) as [season_num|] eqn:Hnum;
      [|by apply Hskip].
    destruct (season_num =? 1); [by apply Hskip|].
    destruct (trailer_exists folder).
    { eapply (Hstep (SeasonExists season_num)); [done|..|by right]. done. }
    set (downloaded :=
           match (_search_youtube_validated
                    (_yt_search_json (season_events st)) original_name
                    en_name [] true true season_num).1 with
           | Some url => truthy url && _download_with_ytdlp url folder
           | None => false
           end).
    destruct downloaded.
    { eapply (Hstep (SeasonTried season_num true)); [done|..|by right].
      done. }
    cbv zeta. destruct (2 <=? consecutive_misses st + 1).
    + eapply (Hstep (SeasonTried season_num false)); [done|..|by left].
      done.
    + eapply (Hstep (SeasonTried season_num false)); [done|..|by right].
      done.
Qed.

End SeasonOrder.

(** X19.  The order of the seasons.  The order of [sorted] on names
    is the order of the code points, a proper prefix first; it is total,
    transitive and antisymmetric.  [_download_season_trailers] looks at
    the seasons in that order of the folder names, each folder at most
    once: the seasons of its events are, in order, among the numbers of
    the sorted season folders. *)
Theorem season_trailers_order (U : UnicodeData)
    (isspace : char -> bool) (season_number : str -> option Z)
    (trailer_exists : str -> bool)
    (_yt_search_json :
       list SeasonEvent -> list SearchEvent -> str -> list Candidate)
    (_download_with_ytdlp : str -> str -> bool)
    (stats : TrailerStats) (show_folder : str) (subfolders : list str)
    (original_name en_name : str) :
  let st :=
    _download_season_trailers isspace season_number trailer_exists
      _yt_search_json _download_with_ytdlp stats show_folder subfolders
      original_name en_name in
  let season_folders :=
    filter (fun name => startswith (lit "Season") name = true) subfolders in
  let sorted := merge_sort str_le season_folders in
  (forall a b, str_le a b \/ str_le b a)
  /\ (forall a b c, str_le a b -> str_le b c -> str_le a c)
  /\ (forall a b, str_le a b -> str_le b a -> a = b)
  /\ (forall a b, str_le a (a ++ b))
  /\ StronglySorted str_le sorted
  /\ sorted ≡ₚ season_folders
  /\ sublist (map event_season (season_events st))
       (omap season_number sorted).
Proof.
  intros st season_folders sorted.
  split; [apply str_leb_total|]. split; [apply str_leb_trans|].
  split; [apply str_leb_antisym|].
  split.
  { intros a b. unfold str_le. induction a as [|x a IH]; [done|].
    cbn [app str_leb]. rewrite N.ltb_irrefl, N.eqb_refl. exact IH. }
  split; [apply StronglySorted_merge_sort; apply _|].
  split; [apply merge_sort_Permutation|].
  subst st. unfold _download_season_trailers.
  fold season_folders. fold sorted.
  destruct season_folders as [|first others] eqn:Hsf.
  { cbn. apply sublist_nil_l. }
  match goal with
  | |- context [season_loop _ _ _ _ _ ?name sorted ?start] =>
      destruct (season_loop_order season_number trailer_exists
                  _yt_search_json _download_with_ytdlp original_name name
                  sorted start) as (new & Hev & Hsub)
  end.
  rewrite Hev. exact Hsub.
Qed.
